(** * marker.processors.llm: the LLM block-processor harness

    A shallow embedding of [marker/processors/llm/__init__.py]
    ([BaseLLMProcessor], [BaseLLMComplexBlockProcessor],
    [BaseLLMSimpleBlockProcessor]) and the properties of its
    dispatch-and-merge protocol.

    Python values are modelled as the interpreter has them: a [str] is a
    sequence of Unicode code points, a float is an IEEE binary64 number, a
    [dict] is a finite map, an exception is a value threaded through an
    error monad, and mutation of the document is explicit state passing. *)

From Stdlib Require Import ZArith NArith List String Ascii Lia.
From Stdlib Require Import Floats.
From stdpp Require Import base option list gmap.

Set Default Proof Using "Type".
Set Warnings "-register-all".
Local Open Scope N_scope.

(** ** Python strings *)

(** A [str] is a sequence of code points. *)
Abbreviation pystr := (list N).

(** A literal: the code points of an ASCII string. *)
Definition py (s : string) : pystr := N_of_ascii <$> list_ascii_of_string s.

(** [c.isspace()]: the code points CPython's [_PyUnicode_IsWhitespace]
    accepts. *)
Definition isspace (c : N) : bool :=
  (9 <=? c) && (c <=? 13) || (28 <=? c) && (c <=? 32)
  || (c =? 133) || (c =? 160) || (c =? 5760)
  || (8192 <=? c) && (c <=? 8202)
  || (c =? 8232) || (c =? 8233) || (c =? 8239) || (c =? 8287) || (c =? 12288).

(** The separator of block addresses, ["/"]. *)
Definition slash : N := 47.

(** [s.lstrip(chars)] and [s.rstrip(chars)] for a predicate on code points. *)
Fixpoint lstrip_by (p : N -> bool) (s : pystr) : pystr :=
  match s with
  | c :: s' => if p c then lstrip_by p s' else s
  | [] => []
  end.

Definition rstrip_by (p : N -> bool) (s : pystr) : pystr :=
  rev (lstrip_by p (rev s)).

(** [s.strip()]: leading and trailing whitespace removed. *)
Definition strip (s : pystr) : pystr := rstrip_by isspace (lstrip_by isspace s).

(** [s.lstrip("/")]. *)
Definition lstrip_slash (s : pystr) : pystr := lstrip_by (N.eqb slash) s.

(** [s.split(sep)] for a one-character separator: one more piece than there
    are separators, empty pieces kept. *)
Fixpoint split (sep : N) (s : pystr) : list pystr :=
  match s with
  | [] => [[]]
  | c :: s' =>
      if c =? sep then [] :: split sep s'
      else match split sep s' with
           | piece :: pieces => (c :: piece) :: pieces
           | [] => [[c]]
           end
  end.

(** ** Exceptions and the error monad *)

(** Instances of Python's [BaseException]: the built-in classes the module
    can meet, [Exception tag] for any other instance of [Exception] a hook or
    a collaborator raises, and the instances of [BaseException] that are not
    instances of [Exception]. *)
Inductive exn : Type :=
| KeyError
| TypeError
| AttributeError
| ValueError
| IndexError
| JSONDecodeError
| ZeroDivisionError
| NotImplementedError
| Exception (tag : nat)
| SystemExit
| KeyboardInterrupt
| GeneratorExit
| BaseException (tag : nat).

(** [isinstance(e, Exception)], what [except Exception] tests. *)
Definition is_Exception (e : exn) : bool :=
  match e with
  | SystemExit | KeyboardInterrupt | GeneratorExit | BaseException _ => false
  | _ => true
  end.

Inductive result (A : Type) : Type :=
| Ok (a : A)
| Raise (e : exn).
Arguments Ok {A} a.
Arguments Raise {A} e.

(** Expressions that return or raise. *)
Definition result_bind {A B} (r : result A) (k : A -> result B) : result B :=
  match r with
  | Ok a => k a
  | Raise e => Raise e
  end.

(** Statements over a mutable state [S]: the state survives a raise, as the
    mutations made before a Python exception do. *)
Definition M (S A : Type) : Type := S -> S * result A.

Definition ret {S A} (a : A) : M S A := fun s => (s, Ok a).
Definition raise {S A} (e : exn) : M S A := fun s => (s, Raise e).
Definition bind {S A B} (m : M S A) (k : A -> M S B) : M S B :=
  fun s => match m s with
           | (s', Ok a) => k a s'
           | (s', Raise e) => (s', Raise e)
           end.
Definition lift {S A} (r : result A) : M S A := fun s => (s, r).
Definition get {S} : M S S := fun s => (s, Ok s).
Definition modify {S} (f : S -> S) : M S unit := fun s => (f s, Ok tt).

(** [try: body except Exception as e: handler e]: an exception that is not
    an instance of [Exception] passes through. *)
Definition try_except {S A} (body : M S A) (handler : exn -> M S A) : M S A :=
  fun s => match body s with
           | (s', Raise e) => if is_Exception e then handler e s' else (s', Raise e)
           | r => r
           end.

Declare Scope py_scope.
Delimit Scope py_scope with py.
Notation "'let*' x := m 'in' k" := (bind m (fun x => k))
  (at level 10, x name, m at level 100, k at level 200) : py_scope.
Notation "m ;;; k" := (bind m (fun _ => k))
  (at level 100, k at level 200, right associativity) : py_scope.
Notation "'let?' x := r 'in' k" := (result_bind r (fun x => k))
  (at level 10, x name, r at level 100, k at level 200) : py_scope.
Local Open Scope py_scope.

(** [for x in xs: body x]. *)
Fixpoint for_each {S A} (body : A -> M S unit) (xs : list A) : M S unit :=
  match xs with
  | [] => ret tt
  | x :: xs' => body x ;;; for_each body xs'
  end.

(** ** JSON values *)

(** What [json.loads] produces; a record of a batch is one of these. *)
Inductive json : Type :=
| JNull
| JBool (b : bool)
| JInt (z : Z)
| JFloat (f : float)
| JStr (s : pystr)
| JArray (items : list json)
| JObject (fields : gmap pystr json).

(** [v[key]] for a string key. *)
Definition getitem (v : json) (key : pystr) : result json :=
  match v with
  | JObject fields =>
      match fields !! key with
      | Some x => Ok x
      | None => Raise KeyError
      end
  | _ => Raise TypeError
  end.

(** [v.strip()]: only a [str] has the method. *)
Definition strip_method (v : json) : result pystr :=
  match v with
  | JStr s => Ok (strip s)
  | _ => Raise AttributeError
  end.

(** ** The schema the module imports *)

(** [marker.schema] is imported, not defined, by the module: the block-type
    enumeration and the field types of a block address are parameters.
    - [BlockTypes_getattr name] is [getattr(BlockTypes, name)] as
      [BlockId] accepts it: the member called [name], or [None] when the
      lookup raises or what it finds is no member;
    - [Ident] is the type of the [page_id] and [block_id] fields,
      [Ident_validate] the validation [BlockId] applies to a [str]
      argument, [Ident_str] the text of a field in an encoded address;
    - [address_root] is the fixed first segment of an encoded address. *)
Class Schema : Type := {
  BlockTypes : Type;
  BlockTypes_eq_dec :: EqDecision BlockTypes;
  BlockTypes_getattr : pystr -> option BlockTypes;
  BlockTypes_name : BlockTypes -> pystr;
  Ident : Type;
  Ident_eq_dec :: EqDecision Ident;
  Ident_validate : pystr -> option Ident;
  Ident_str : Ident -> pystr;
  address_root : pystr;
}.

Section Address.
Context `{Schema}.

(** The address of a block, [marker.schema.blocks.BlockId]. *)
Record BlockId : Type := {
  page_id : Ident;
  block_id : Ident;
  block_type : BlockTypes;
}.

#[export] Instance BlockId_eq_dec : EqDecision BlockId.
Proof. solve_decision. Defined.

(** [BlockId(page_id=..., block_id=..., block_type=...)] on two [str]
    arguments and a member: the fields are validated, a rejected field
    raises. *)
Definition BlockId_init (page_id block_id : pystr) (block_type : BlockTypes)
  : result BlockId :=
  match Ident_validate page_id, Ident_validate block_id with
  | Some p, Some b => Ok {| page_id := p; block_id := b; block_type := block_type |}
  | _, _ => Raise ValueError
  end.

(** Modelled from the spec: [str(block.id)], the method [BlockId.__str__],
    is not part of the module; the canonical textual encoding of an address
    is ["/<root>/<page_id>/<block_type>/<block_id>"]. *)
Definition encode (a : BlockId) : pystr :=
  slash :: address_root ++ slash :: Ident_str (page_id a)
    ++ slash :: BlockTypes_name (block_type a) ++ slash :: Ident_str (block_id a).

(** The decoding [handle_rewrites] performs on a record's ["id"] value
    (lines 113-119):
    [[
      block_id = block_data["id"].strip().lstrip("/")
      _, page_id, block_type, block_id = block_id.split("/")
      block_id = BlockId(page_id=page_id, block_id=block_id,
                         block_type=getattr(BlockTypes, block_type))
    ]] *)
Definition decode (id_field : json) : result BlockId :=
  let? stripped := strip_method id_field in
  let block_id := lstrip_slash stripped in
  match split slash block_id with
  | [_; page_id; block_type; block_id] =>
      match BlockTypes_getattr block_type with
      | Some member => BlockId_init page_id block_id member
      | None => Raise AttributeError
      end
  | _ => Raise ValueError
  end.

End Address.

(** ** The document tree *)

Section Document.
Context `{Schema}.

(** Modelled from the spec: the geometry of a page or block
    ([marker.schema.polygon] is not part of the module). [bbox] is the
    sequence [x0, y0, x1, y1] in page pixels; [width] and [height] are the
    pixel dimensions. *)
Record Polygon : Type := {
  bbox : list float;
  width : float;
  height : float;
}.

(** Modelled from the spec: a block has a stable address, a bounding box and
    optionally a mutable markup field ([marker.schema.blocks.Block] is not
    part of the module). [Block_html] is [None] when the object has no
    [html] attribute, so [hasattr(block, "html")] is [is_Some]. *)
Record Block : Type := {
  Block_id : BlockId;
  Block_polygon : Polygon;
  Block_html : option json;
}.

(** Modelled from the spec: a page has pixel dimensions and owns an ordered
    sequence of blocks ([marker.schema.groups.PageGroup] is not part of the
    module). *)
Record PageGroup : Type := {
  PageGroup_polygon : Polygon;
  PageGroup_children : list Block;
}.

(** Modelled from the spec: a document is an ordered sequence of pages
    ([marker.schema.document.Document] is not part of the module). *)
Record Document : Type := {
  pages : list PageGroup;
}.

Definition has_id (a : BlockId) (b : Block) : bool := bool_decide (Block_id b = a).

(** Every block of the document, in page order. *)
Definition all_blocks (d : Document) : list Block :=
  flat_map PageGroup_children (pages d).

(** Modelled from the spec: [document.get_block(block_id)] is
    [document.lookup(address) -> block | not-found]; the object returned is
    the first block carrying the address. *)
Definition get_block (d : Document) (a : BlockId) : option Block :=
  find (has_id a) (all_blocks d).

(** In-place mutation of the first element satisfying [p]. *)
Fixpoint alter_first {A} (p : A -> bool) (f : A -> A) (l : list A) : list A :=
  match l with
  | [] => []
  | x :: l' => if p x then f x :: l' else x :: alter_first p f l'
  end.

Definition set_children (pg : PageGroup) (bs : list Block) : PageGroup :=
  {| PageGroup_polygon := PageGroup_polygon pg; PageGroup_children := bs |}.

Fixpoint alter_first_block (p : Block -> bool) (f : Block -> Block)
    (pgs : list PageGroup) : list PageGroup :=
  match pgs with
  | [] => []
  | pg :: pgs' =>
      if existsb p (PageGroup_children pg)
      then set_children pg (alter_first p f (PageGroup_children pg)) :: pgs'
      else pg :: alter_first_block p f pgs'
  end.

Definition set_html (v : json) (b : Block) : Block :=
  {| Block_id := Block_id b; Block_polygon := Block_polygon b; Block_html := Some v |}.

(** [block.html = v] on the object [document.get_block(a)] returned: the
    block is shared with the document, so the document changes. *)
Definition assign_html (a : BlockId) (v : json) (d : Document) : Document :=
  {| pages := alter_first_block (has_id a) (set_html v) (pages d) |}.

(** The markup of the block at an address, as a reader of the document
    sees it. *)
Definition html_at (d : Document) (a : BlockId) : option json :=
  b ← get_block d a; Block_html b.

(** ** The rewrite applier *)

(** What [logger.debug] receives, kept structured. *)
Inductive log_entry : Type :=
| Debug_not_found (a : BlockId)
| Debug_error_parsing (id_field : json) (e : exn).

(** The state a call mutates: the document and the log. *)
Record World : Type := {
  document : Document;
  log : list log_entry;
}.

Definition logger (entry : log_entry) : M World unit :=
  modify (fun w => {| document := document w; log := log w ++ [entry] |}).

Definition set_block_html (a : BlockId) (v : json) : M World unit :=
  modify (fun w => {| document := assign_html a v (document w); log := log w |}).

Section LoadBlocks.
(** [json.loads], the standard library's decoder. *)
Variable json_loads : pystr -> result json.

(** [json.loads(block)] on an element of [response["blocks"]]: a [str] is
    decoded, anything else is a [TypeError]. *)
Definition loads_item (block : json) : result json :=
  match block with
  | JStr s => json_loads s
  | _ => Raise TypeError
  end.

(** The list comprehension of [load_blocks]: the first element that raises
    ends the comprehension. *)
Fixpoint loads_all (blocks : list json) : result (list json) :=
  match blocks with
  | [] => Ok []
  | block :: rest =>
      let? v := loads_item block in
      let? vs := loads_all rest in
      Ok (v :: vs)
  end.

(** What [for block in v] iterates over. *)
Definition iterate (v : json) : result (list json) :=
  match v with
  | JArray items => Ok items
  | JStr s => Ok ((fun c => JStr [c]) <$> s)
  | JObject fields => Ok (JStr <$> (map_to_list fields).*1)
  | _ => Raise TypeError
  end.

(** [load_blocks] (lines 107-108):
    [[
      return [json.loads(block) for block in response["blocks"]]
    ]] *)
Definition load_blocks (response : json) : result (list json) :=
  let? blocks := getitem response (py "blocks") in
  let? items := iterate blocks in
  loads_all items.
End LoadBlocks.

(** The body of the [try] of [handle_rewrites] (lines 113-126). *)
Definition rewrite_one (block_data : json) : M World unit :=
  let* id_field := lift (getitem block_data (py "id")) in
  let* block_id := lift (decode id_field) in
  let* w := get in
  match get_block (document w) block_id with
  | None => logger (Debug_not_found block_id)
  | Some block =>
      if bool_decide (is_Some (Block_html block))
      then let* html := lift (getitem block_data (py "html")) in
           set_block_html block_id html
      else ret tt
  end.

(** The [except Exception as e] clause (lines 127-129): the message of the
    log call reads [block_data['id']] again. *)
Definition rewrite_failed (block_data : json) (e : exn) : M World unit :=
  let* id_field := lift (getitem block_data (py "id")) in
  logger (Debug_error_parsing id_field e).

(** [handle_rewrites] (lines 110-129). *)
Definition handle_rewrites (blocks : list json) : M World unit :=
  for_each (fun block_data =>
              try_except (rewrite_one block_data) (rewrite_failed block_data))
           blocks.

End Document.

(** ** The request builder *)

(** [a / b] on floats: true division, [ZeroDivisionError] on a zero
    divisor. *)
Definition truediv (a b : float) : result float :=
  if PrimFloat.eqb b 0 then Raise ZeroDivisionError else Ok (PrimFloat.div a b).

(** [xs[i]] on a sequence. *)
Definition index {A} (xs : list A) (i : nat) : result A :=
  match xs !! i with
  | Some x => Ok x
  | None => Raise IndexError
  end.

Section Normalize.
Context `{Schema}.
(** [str(block.id.block_type)] and [json_to_html(block.render(document))]:
    collaborators of the module. *)
Variable BlockTypes_str : BlockTypes -> pystr.
Variable render_html : Block -> Document -> pystr.

(** The [normalized_bbox] list of [normalize_block_json] (lines 86-96): each
    coordinate is divided by the page dimension, then multiplied by 1000. *)
Definition normalized_bbox (block : Block) (page : PageGroup) : result (list float) :=
  let page_width := width (PageGroup_polygon page) in
  let page_height := height (PageGroup_polygon page) in
  let block_bbox := bbox (Block_polygon block) in
  let? x0 := index block_bbox 0 in
  let? a := truediv x0 page_width in
  let? y0 := index block_bbox 1 in
  let? b := truediv y0 page_height in
  let? x1 := index block_bbox 2 in
  let? c := truediv x1 page_width in
  let? y1 := index block_bbox 3 in
  let? d := truediv y1 page_height in
  Ok [PrimFloat.mul a 1000; PrimFloat.mul b 1000;
      PrimFloat.mul c 1000; PrimFloat.mul d 1000]%float.

(** [normalize_block_json] (lines 82-105). *)
Definition normalize_block_json (block : Block) (document : Document)
    (page : PageGroup) : result (gmap pystr json) :=
  let? normalized := normalized_bbox block page in
  Ok (<[py "id" := JStr (encode (Block_id block))]>
      (<[py "block_type" := JStr (BlockTypes_str (block_type (Block_id block)))]>
      (<[py "bbox" := JArray (JFloat <$> normalized)]>
      (<[py "html" := JStr (render_html block document)]> ∅)))).

End Normalize.

(** ** The orchestrators *)

(** Every way to take one element out of a list: the element and the rest. *)
Fixpoint picks {A} (l : list A) : list (A * list A) :=
  match l with
  | [] => []
  | x :: l' => (x, l') :: ((fun '(y, rest) => (y, x :: rest)) <$> picks l')
  end.

(** The recognised options the orchestrators read. *)
Record Config : Type := {
  max_concurrency : Z;
  use_llm : bool;
  disable_tqdm : bool;
}.

Section Orchestrator.
(** The program state the hooks act on, and the handles of pages and blocks
    that tasks carry. What a hook does is the concrete processor's business:
    a hook is any total state transformer that returns or raises. *)
Context {St Pg Bk Service : Type}.
(** [document.pages] and [page.contained_blocks(document, self.block_types)],
    read in the current state. *)
Variable document_pages : St -> list Pg.
Variable contained_blocks : St -> Pg -> list Bk.

Record BaseLLMProcessor : Type := {
  config : Config;
  llm_service : option Service;
}.

(** [BaseLLMProcessor.__init__] (lines 60-67): the service is kept only when
    [use_llm] is set. *)
Definition BaseLLMProcessor_init (service : option Service) (cfg : Config)
  : BaseLLMProcessor :=
  {| config := cfg; llm_service := if use_llm cfg then service else None |}.

(** The abstract method of the base class (lines 146-147). *)
Definition process_rewriting_base (page : Pg) (block : Bk) : M St unit :=
  raise NotImplementedError.

Variable self : BaseLLMProcessor.
Variable process_rewriting : Pg -> Bk -> M St unit.

Local Abbreviation task := (Pg * Bk)%type.

(** What the outside observes of a call. *)
Inductive event : Type :=
| Tqdm_created (disable : bool)
| Executor_created (max_workers : Z)
| Submitted (t : task)
| Started (t : task)
| Completed (t : task) (r : result unit)
| Yielded (t : task) (r : result unit)
| Pbar_update
| Executor_shutdown
| Pbar_close
| Warning (e : exn)
| Traceback_printed (e : exn).

(** Where the calling thread is in [rewrite_blocks] (lines 149-172). *)
Inductive pc : Type :=
| Counting
| Submitting (pages_left : list Pg) (tasks_left : list task)
| Iterating
| Exiting (r : result unit)
| Finished (r : result unit).

(** The calling thread, the shared state and the thread pool:
    [queue] holds the submitted tasks no worker has taken (first in, first
    out), [running] the tasks in flight, [done] the finished futures
    [as_completed] has not yielded yet. *)
Record machine : Type := {
  main : pc;
  state : St;
  queue : list task;
  running : list task;
  done : list (task * result unit);
  trace : list event;
}.

Definition start (s : St) : machine :=
  {| main := Counting; state := s; queue := []; running := []; done := [];
     trace := [] |}.

(** [sum(len(page.contained_blocks(...)) for page in document.pages)]. *)
Definition total_blocks (s : St) : nat :=
  list_sum ((fun page => length (contained_blocks s page)) <$> document_pages s).

Definition workers : nat := Z.to_nat (max_concurrency (config self)).

Definition idle (m : machine) : bool :=
  match queue m, running m with
  | [], [] => true
  | _, _ => false
  end.

(** The steps of the calling thread.
    - [Counting] (lines 151-161): no matching block, immediate return;
      otherwise the progress bar, then the executor, whose constructor
      raises [ValueError] for [max_workers <= 0].
    - [Submitting] (lines 163-167): the list comprehension, one
      [executor.submit] per block of each page.
    - [Iterating] (lines 162-170): [as_completed] yields a finished future,
      [future.result()] re-raises its exception or the bar advances; the
      loop ends when every future has been yielded.
    - [Exiting]: leaving the [with] block is [shutdown(wait=True)], which
      returns once no task is queued or running; then [pbar.close()] on
      the normal path (line 172), or the exception propagates. *)
Definition main_steps (m : machine) : list machine :=
  match main m with
  | Counting =>
      if Nat.eqb (total_blocks (state m)) 0 then
        [{| main := Finished (Ok tt); state := state m; queue := queue m;
            running := running m; done := done m; trace := trace m |}]
      else if (max_concurrency (config self) <=? 0)%Z then
        [{| main := Finished (Raise ValueError); state := state m;
            queue := queue m; running := running m; done := done m;
            trace := trace m ++ [Tqdm_created (disable_tqdm (config self))] |}]
      else
        [{| main := Submitting (document_pages (state m)) []; state := state m;
            queue := queue m; running := running m; done := done m;
            trace := trace m ++ [Tqdm_created (disable_tqdm (config self));
                                 Executor_created (max_concurrency (config self))] |}]
  | Submitting pages_left (t :: tasks_left) =>
      [{| main := Submitting pages_left tasks_left; state := state m;
          queue := queue m ++ [t]; running := running m; done := done m;
          trace := trace m ++ [Submitted t] |}]
  | Submitting (page :: pages_left) [] =>
      [{| main := Submitting pages_left
                    (pair page <$> contained_blocks (state m) page);
          state := state m; queue := queue m; running := running m;
          done := done m; trace := trace m |}]
  | Submitting [] [] =>
      [{| main := Iterating; state := state m; queue := queue m;
          running := running m; done := done m; trace := trace m |}]
  | Iterating =>
      (if idle m && bool_decide (length (done m) = 0%nat) then
         [{| main := Exiting (Ok tt); state := state m; queue := queue m;
             running := running m; done := done m; trace := trace m |}]
       else [])
      ++ ((fun '((t, r), rest) =>
            match r with
            | Ok _ =>
                {| main := Iterating; state := state m; queue := queue m;
                   running := running m; done := rest;
                   trace := trace m ++ [Yielded t r; Pbar_update] |}
            | Raise e =>
                {| main := Exiting (Raise e); state := state m; queue := queue m;
                   running := running m; done := rest;
                   trace := trace m ++ [Yielded t r] |}
            end) <$> picks (done m))
  | Exiting r =>
      if idle m then
        [{| main := Finished r; state := state m; queue := queue m;
            running := running m; done := done m;
            trace := trace m ++ Executor_shutdown
                       :: match r with Ok _ => [Pbar_close] | Raise _ => [] end |}]
      else []
  | Finished _ => []
  end.

Definition pool_alive (p : pc) : bool :=
  match p with
  | Submitting _ _ | Iterating | Exiting _ => true
  | Counting | Finished _ => false
  end.

(** The steps of the pool: a free worker takes the head of the queue, or a
    running task completes, its hook acting on the shared state in one step
    (how the bodies of two hooks interleave is not modelled). No step
    removes a task from the queue without running it: the executor is never
    asked to cancel. *)
Definition worker_steps (m : machine) : list machine :=
  if pool_alive (main m) then
    match queue m with
    | t :: rest =>
        if (length (running m) <? workers)%nat then
          [{| main := main m; state := state m; queue := rest;
              running := running m ++ [t]; done := done m;
              trace := trace m ++ [Started t] |}]
        else []
    | [] => []
    end
    ++ ((fun '(t, rest) =>
          let '(s', r) := process_rewriting t.1 t.2 (state m) in
          {| main := main m; state := s'; queue := queue m; running := rest;
             done := done m ++ [(t, r)]; trace := trace m ++ [Completed t r] |})
       <$> picks (running m))
  else [].

Definition next (m : machine) : list machine := main_steps m ++ worker_steps m.

Definition step (m m' : machine) : Prop := m' ∈ next m.

(** The final machines reached within [fuel] steps, along every schedule. *)
Fixpoint explore (fuel : nat) (m : machine) : list machine :=
  match fuel with
  | O => []
  | S fuel' =>
      match main m with
      | Finished _ => [m]
      | _ => flat_map (explore fuel') (next m)
      end
  end.

(** The schedule that always takes the first enabled step. *)
Fixpoint run (fuel : nat) (m : machine) : machine :=
  match fuel with
  | O => m
  | S fuel' =>
      match next m with
      | m' :: _ => run fuel' m'
      | [] => m
      end
  end.


(** The steps again, case by case. *)
Inductive transition (m : machine) : machine → Prop :=
| count_none :
    main m = Counting → total_blocks (state m) = 0%nat →
    transition m
      {| main := Finished (Ok tt); state := state m; queue := queue m;
         running := running m; done := done m; trace := trace m |}
| count_no_pool :
    main m = Counting → total_blocks (state m) ≠ 0%nat →
    (max_concurrency (config self) ≤ 0)%Z →
    transition m
      {| main := Finished (Raise ValueError); state := state m;
         queue := queue m; running := running m; done := done m;
         trace := trace m ++ [Tqdm_created (disable_tqdm (config self))] |}
| count_some :
    main m = Counting → total_blocks (state m) ≠ 0%nat →
    (0 < max_concurrency (config self))%Z →
    transition m
      {| main := Submitting (document_pages (state m)) []; state := state m;
         queue := queue m; running := running m; done := done m;
         trace := trace m ++ [Tqdm_created (disable_tqdm (config self));
                              Executor_created (max_concurrency (config self))] |}
| submit_task pages_left t tasks_left :
    main m = Submitting pages_left (t :: tasks_left) →
    transition m
      {| main := Submitting pages_left tasks_left; state := state m;
         queue := queue m ++ [t]; running := running m; done := done m;
         trace := trace m ++ [Submitted t] |}
| next_page page pages_left :
    main m = Submitting (page :: pages_left) [] →
    transition m
      {| main := Submitting pages_left
                   (pair page <$> contained_blocks (state m) page);
         state := state m; queue := queue m; running := running m;
         done := done m; trace := trace m |}
| all_submitted :
    main m = Submitting [] [] →
    transition m
      {| main := Iterating; state := state m; queue := queue m;
         running := running m; done := done m; trace := trace m |}
| all_yielded :
    main m = Iterating → queue m = [] → running m = [] → done m = [] →
    transition m
      {| main := Exiting (Ok tt); state := state m; queue := queue m;
         running := running m; done := done m; trace := trace m |}
| yield_ok t u before after :
    main m = Iterating → done m = before ++ (t, Ok u) :: after →
    transition m
      {| main := Iterating; state := state m; queue := queue m;
         running := running m; done := before ++ after;
         trace := trace m ++ [Yielded t (Ok u); Pbar_update] |}
| yield_raise t e before after :
    main m = Iterating → done m = before ++ (t, Raise e) :: after →
    transition m
      {| main := Exiting (Raise e); state := state m; queue := queue m;
         running := running m; done := before ++ after;
         trace := trace m ++ [Yielded t (Raise e)] |}
| shutdown r :
    main m = Exiting r → queue m = [] → running m = [] →
    transition m
      {| main := Finished r; state := state m; queue := queue m;
         running := running m; done := done m;
         trace := trace m ++ Executor_shutdown
                    :: match r with Ok _ => [Pbar_close] | Raise _ => [] end |}
| worker_start t rest :
    pool_alive (main m) = true → queue m = t :: rest →
    (length (running m) < workers)%nat →
    transition m
      {| main := main m; state := state m; queue := rest;
         running := running m ++ [t]; done := done m;
         trace := trace m ++ [Started t] |}
| worker_finish t before after :
    pool_alive (main m) = true → running m = before ++ t :: after →
    transition m
      {| main := main m; state := (process_rewriting t.1 t.2 (state m)).1;
         queue := queue m; running := before ++ after;
         done := done m ++ [(t, (process_rewriting t.1 t.2 (state m)).2)];
         trace := trace m
                    ++ [Completed t (process_rewriting t.1 t.2 (state m)).2] |}.

(** What a trace says was submitted, started, completed and yielded. *)
Definition submitted (tr : list event) : list task :=
  omap (fun ev => match ev with Submitted t => Some t | _ => None end) tr.
Definition started (tr : list event) : list task :=
  omap (fun ev => match ev with Started t => Some t | _ => None end) tr.
Definition completed (tr : list event) : list (task * result unit) :=
  omap (fun ev => match ev with Completed t r => Some (t, r) | _ => None end) tr.
Definition yielded (tr : list event) : list (task * result unit) :=
  omap (fun ev => match ev with Yielded t r => Some (t, r) | _ => None end) tr.

(** A future that holds a value, not an exception. *)
Definition succeeded (f : task * result unit) : Prop :=
  match f.2 with Ok _ => True | Raise _ => False end.

(** The matching (page, block) pairs of a state, as the comprehension of
    lines 163-167 enumerates them. *)
Definition all_tasks (s : St) : list task :=
  flat_map (fun page => pair page <$> contained_blocks s page) (document_pages s).

(** A hook that leaves the pages and the matching blocks of every page what
    they are, as a hook that only rewrites markup does. A hook that adds,
    removes or retypes a block, its own included, is not one. *)
Definition hook_keeps_blocks : Prop :=
  ∀ page block s,
    document_pages (process_rewriting page block s).1 = document_pages s
    ∧ ∀ page', contained_blocks (process_rewriting page block s).1 page'
               = contained_blocks s page'.

(** What every machine of a call satisfies: the queue is first in, first
    out; a started task is running or completed; a completed future is
    yielded or waiting to be; and the calling thread is where its
    observations say. *)
Definition phase_ok (m : machine) : Prop :=
  match main m with
  | Counting => trace m = [] ∧ queue m = [] ∧ running m = [] ∧ done m = []
  | Submitting _ _ => (0 < workers)%nat ∧ yielded (trace m) = []
  | Iterating => (0 < workers)%nat ∧ Forall succeeded (yielded (trace m))
  | Exiting (Ok _) =>
      (0 < workers)%nat ∧ Forall succeeded (yielded (trace m))
      ∧ queue m = [] ∧ running m = [] ∧ done m = []
  | Exiting (Raise e) =>
      (0 < workers)%nat
      ∧ ∃ oks t, yielded (trace m) = oks ++ [(t, Raise e)] ∧ Forall succeeded oks
  | Finished (Ok _) =>
      Forall succeeded (yielded (trace m))
      ∧ queue m = [] ∧ running m = [] ∧ done m = []
  | Finished (Raise e) =>
      queue m = [] ∧ running m = []
      ∧ ((e = ValueError ∧ trace m = [Tqdm_created (disable_tqdm (config self))])
         ∨ ∃ oks t, yielded (trace m) = oks ++ [(t, Raise e)] ∧ Forall succeeded oks)
  end.

Record pool_invariant (m : machine) : Prop := {
  inv_fifo : submitted (trace m) = started (trace m) ++ queue m;
  inv_running : started (trace m) ≡ₚ (completed (trace m)).*1 ++ running m;
  inv_done : completed (trace m) ≡ₚ yielded (trace m) ++ done m;
  inv_phase : phase_ok m;
}.

(** What the comprehension has enumerated so far, for a call from [s0]. *)
Definition enumeration_ok (s0 : St) (m : machine) : Prop :=
  document_pages (state m) = document_pages s0
  ∧ (∀ page, contained_blocks (state m) page = contained_blocks s0 page)
  ∧ match main m with
    | Counting => submitted (trace m) = []
    | Submitting pages_left tasks_left =>
        submitted (trace m) ++ tasks_left
          ++ flat_map (fun page => pair page <$> contained_blocks s0 page) pages_left
        = all_tasks s0
    | Iterating | Exiting _ => submitted (trace m) = all_tasks s0
    | Finished _ =>
        submitted (trace m) = all_tasks s0 ∨ (max_concurrency (config self) ≤ 0)%Z
    end.

(** The measure that decreases along every step, lexicographically. *)
Definition rank (p : pc) : nat :=
  match p with
  | Counting => 4
  | Submitting _ _ => 3
  | Iterating => 2
  | Exiting _ => 1
  | Finished _ => 0
  end.

Definition pages_to_go (p : pc) : nat :=
  match p with
  | Submitting pages_left _ => length pages_left
  | _ => 0
  end.

Definition weight (m : machine) : nat :=
  4 * match main m with Submitting _ tasks_left => length tasks_left | _ => 0 end
  + 3 * length (queue m) + 2 * length (running m) + length (done m).

(** An outcome of a call: the state left behind, what was observed, and the
    return or the exception. *)
Definition outcome : Type := St * list event * result unit.

(** [rewrite_blocks(document)]: the outcomes of its complete executions. *)
Definition rewrite_blocks (s : St) (out : outcome) : Prop :=
  ∃ m r, rtc step (start s) m ∧ main m = Finished r ∧ out = (state m, trace m, r).

(** [BaseLLMComplexBlockProcessor.__call__] (lines 137-144). *)
Definition Complex_call (s : St) (out : outcome) : Prop :=
  if negb (use_llm (config self))
     || match llm_service self with None => true | Some _ => false end
  then out = (s, [], Ok tt)
  else ∃ s' tr r, rewrite_blocks s (s', tr, r) ∧
         out = match r with
               | Ok _ => (s', tr, Ok tt)
               | Raise e =>
                   if is_Exception e then (s', tr ++ [Warning e], Ok tt)
                   else (s', tr, Raise e)
               end.

(** [BaseLLMSimpleBlockProcessor.__call__] (lines 184-189), for a hook
    [rewrite_block] over responses and prompt data of any type. *)
Definition Simple_call {Resp Prompt : Type}
    (rewrite_block : Resp -> Prompt -> M St unit)
    (response : Resp) (prompt_data : Prompt) (s : St) : outcome :=
  match rewrite_block response prompt_data s with
  | (s', Ok _) => (s', [], Ok tt)
  | (s', Raise e) =>
      if is_Exception e then (s', [Warning e; Traceback_printed e], Ok tt)
      else (s', [], Raise e)
  end.

(** The abstract method of the base class (lines 201-204). *)
Definition rewrite_block_base {Resp Prompt : Type}
    (response : Resp) (prompt_data : Prompt) : M St unit :=
  raise NotImplementedError.

End Orchestrator.

(** ** The orchestrators over the document tree *)

Section OverDocuments.
Context `{Schema}.

(** [self.block_types]: [None] leaves the filter unrestricted. *)
Definition matches (block_types : option (list BlockTypes)) (b : Block) : bool :=
  match block_types with
  | None => true
  | Some allowed => bool_decide (block_type (Block_id b) ∈ allowed)
  end.

(** Tasks hold references to a page and a block: a page is known by its
    position in [document.pages], a block by its address. *)
Definition World_pages (w : World) : list nat :=
  seq 0 (length (pages (document w))).

(** Modelled from the spec: [page.contained_blocks(document, block_types)]
    is [page.matchingBlocks(types) -> sequence], the blocks of the page
    whose type the filter allows ([PageGroup.contained_blocks] is not part
    of the module). *)
Definition World_contained_blocks (block_types : option (list BlockTypes))
    (w : World) (page : nat) : list BlockId :=
  match pages (document w) !! page with
  | Some pg => Block_id <$> filter (fun b => matches block_types b = true)
                                   (PageGroup_children pg)
  | None => []
  end.

(** [inference_blocks] (lines 191-196). *)
Definition inference_blocks (block_types : option (list BlockTypes)) (w : World)
  : list (nat * BlockId) :=
  flat_map (fun page => pair page <$> World_contained_blocks block_types w page)
           (World_pages w).

End OverDocuments.

(** ** Notions the statements use *)

Section Notions.
Context `{Schema}.

(** The path segments [decode] unpacks: the pieces of the trimmed text. *)
Definition segments (s : pystr) : list pystr :=
  split slash (lstrip_slash (strip s)).

(** A well-formed address: the root is a non-empty segment, each field
    survives its own validation, no segment contains the separator, and the
    last one does not end in whitespace. *)
Definition well_formed (a : BlockId) : Prop :=
  address_root ≠ [] ∧ (slash ∉ address_root)
  ∧ Ident_validate (Ident_str (page_id a)) = Some (page_id a)
  ∧ (slash ∉ Ident_str (page_id a))
  ∧ BlockTypes_getattr (BlockTypes_name (block_type a)) = Some (block_type a)
  ∧ (slash ∉ BlockTypes_name (block_type a))
  ∧ Ident_validate (Ident_str (block_id a)) = Some (block_id a)
  ∧ (slash ∉ Ident_str (block_id a))
  ∧ rstrip_by isspace (Ident_str (block_id a)) = Ident_str (block_id a).

(** A record that is a [dict] holding the key ["id"]. *)
Definition has_id_key (block_data : json) : Prop :=
  ∃ fields id_field, block_data = JObject fields ∧ fields !! py "id" = Some id_field.

(** The block a record names and the markup it carries, when the record
    decodes, the block exists and has a markup field, and the record holds
    ["html"]. *)
Definition resolves (d : Document) (block_data : json) : option (BlockId * json) :=
  match getitem block_data (py "id") with
  | Ok id_field =>
      match decode id_field with
      | Ok a =>
          match get_block d a with
          | Some block =>
              if bool_decide (is_Some (Block_html block))
              then match getitem block_data (py "html") with
                   | Ok html => Some (a, html)
                   | Raise _ => None
                   end
              else None
          | None => None
          end
      | Raise _ => None
      end
  | Raise _ => None
  end.

(** The markup the block at [a] ends with: that of the last record of the
    batch that resolves to [a], its old markup when none does. *)
Definition last_rewrite (d : Document) (a : BlockId) (blocks : list json)
    (old : option json) : option json :=
  fold_left (fun acc block_data =>
               match resolves d block_data with
               | Some (a', html) => if bool_decide (a' = a) then Some html else acc
               | None => acc
               end) blocks old.

(** What one record does to the document: the markup of the block it
    resolves to is overwritten; a record that does not resolve changes
    nothing. *)
Definition apply_record (d : Document) (block_data : json) : Document :=
  match resolves d block_data with
  | Some (a, html) => assign_html a html d
  | None => d
  end.

(** [applyRewrites]: [load_blocks] followed by [handle_rewrites]. *)
Definition apply_rewrites (json_loads : pystr -> result json) (response : json)
  : M World unit :=
  let* blocks := lift (load_blocks json_loads response) in
  handle_rewrites blocks.

(** The box the formula [1000 * coord / dimension] gives, multiplication
    first. *)
Definition scaled_bbox (block : Block) (page : PageGroup) : list float :=
  match bbox (Block_polygon block) with
  | [x0; y0; x1; y1] =>
      [PrimFloat.div (PrimFloat.mul 1000 x0) (width (PageGroup_polygon page));
       PrimFloat.div (PrimFloat.mul 1000 y0) (height (PageGroup_polygon page));
       PrimFloat.div (PrimFloat.mul 1000 x1) (width (PageGroup_polygon page));
       PrimFloat.div (PrimFloat.mul 1000 y1) (height (PageGroup_polygon page))]
  | _ => []
  end.

(** What no rewrite touches: a block without the content of its markup
    field (whether it has one is kept), a page with its blocks so stripped,
    the document page by page. *)
Definition Block_frame (b : Block) : BlockId * Polygon * bool :=
  (Block_id b, Block_polygon b, bool_decide (is_Some (Block_html b))).

Definition PageGroup_frame (pg : PageGroup) : Polygon * list (BlockId * Polygon * bool) :=
  (PageGroup_polygon pg, Block_frame <$> PageGroup_children pg).

Definition Document_frame (d : Document) : list (Polygon * list (BlockId * Polygon * bool)) :=
  PageGroup_frame <$> pages d.

(** The assignments a batch makes in a document: the address and markup of
    each record that resolves, in batch order. *)
Definition rewrites (d : Document) (blocks : list json) : list (BlockId * json) :=
  omap (resolves d) blocks.

Definition assign_all (d : Document) (ops : list (BlockId * json)) : Document :=
  foldl (fun d op => assign_html op.1 op.2 d) d ops.

(** The addresses of the blocks of a page the filter allows. *)
Definition matching_ids (block_types : option (list BlockTypes)) (pg : PageGroup)
  : list BlockId :=
  Block_id <$> filter (fun b => matches block_types b = true) (PageGroup_children pg).

(** The four keys of a request payload. *)
Definition payload_keys : list pystr :=
  [py "id"; py "block_type"; py "bbox"; py "html"].

End Notions.

(** ** Notions about the pool *)

Section PoolNotions.
Context {St Pg Bk : Type}.

(** The state the hooks of a sequence of tasks leave, run one after the
    other. *)
Definition run_hooks (process_rewriting : Pg -> Bk -> M St unit)
    (s : St) (tasks : list (Pg * Bk)) : St :=
  foldl (fun s t => (process_rewriting t.1 t.2 s).1) s tasks.

(** The results those hooks give, each run in the state its predecessors
    left. *)
Fixpoint run_results (process_rewriting : Pg -> Bk -> M St unit)
    (s : St) (tasks : list (Pg * Bk)) : list (Pg * Bk * result unit) :=
  match tasks with
  | [] => []
  | t :: tasks' =>
      (t, (process_rewriting t.1 t.2 s).2)
        :: run_results process_rewriting (process_rewriting t.1 t.2 s).1 tasks'
  end.

(** The calls of [pbar.update(1)] in a trace. *)
Definition updates (tr : list (@event Pg Bk)) : list unit :=
  omap (fun ev => match ev with Pbar_update => Some tt | _ => None end) tr.

(** The tasks whose future was yielded holding a value. *)
Definition yielded_ok (tr : list (@event Pg Bk)) : list (Pg * Bk) :=
  omap (fun ev => match ev with Yielded t (Ok _) => Some t | _ => None end) tr.

End PoolNotions.

(** ** A sample schema and sample documents *)

Module Sample.
Local Open Scope string_scope.

(** Three block kinds of the enumeration. *)
Inductive kind : Type := Text | Table | Equation.

#[export] Instance kind_eq_dec : EqDecision kind.
Proof. solve_decision. Defined.

Definition kind_name (k : kind) : pystr :=
  match k with
  | Text => py "Text"
  | Table => py "Table"
  | Equation => py "Equation"
  end.

Definition kind_getattr (name : pystr) : option kind :=
  find (fun k => bool_decide (kind_name k = name)) [Text; Table; Equation].

(** Page and block identifiers are non-empty texts such as [p1] and [b1];
    addresses start with the root segment [doc]. *)
#[export] Instance schema : Schema := {|
  BlockTypes := kind;
  BlockTypes_getattr := kind_getattr;
  BlockTypes_name := kind_name;
  Ident := pystr;
  Ident_validate := fun s => match s with [] => None | _ => Some s end;
  Ident_str := fun s => s;
  address_root := py "doc";
|}.

Definition address (page block : string) (k : kind) : BlockId :=
  {| page_id := py page; block_id := py block; block_type := k |}.

Definition box (x0 y0 x1 y1 : float) : Polygon :=
  {| bbox := [x0; y0; x1; y1]; width := PrimFloat.sub x1 x0;
     height := PrimFloat.sub y1 y0 |}.

Definition block (a : BlockId) (shape : Polygon) (html : option string) : Block :=
  {| Block_id := a; Block_polygon := shape;
     Block_html := (fun s => JStr (py s)) <$> html |}.

(** A 1000 x 2000 page with two text blocks and a table. *)
Definition page1 : PageGroup :=
  {| PageGroup_polygon := box 0 0 1000 2000;
     PageGroup_children :=
       [block (address "p1" "b1" Text) (box 100 200 300 400) (Some "<p>one</p>");
        block (address "p1" "b2" Table) (box 100 500 900 900) (Some "<table/>");
        block (address "p1" "b3" Text) (box 100 1000 900 1100) (Some "<p>three</p>")] |}.

(** A 2000 x 2000 page with an equation, a block that has no markup field
    and a box that sticks out of the page. *)
Definition page2 : PageGroup :=
  {| PageGroup_polygon := box 0 0 2000 2000;
     PageGroup_children :=
       [block (address "p2" "b1" Equation) (box 1001 1003 1005 1007) (Some "<math/>");
        block (address "p2" "b2" Text) (box 0 0 10 10) None;
        block (address "p2" "b3" Text) (box (-50) 1900 2500 2100) (Some "<p>out</p>")] |}.

Definition doc : Document := {| pages := [page1; page2] |}.

Definition world : World := {| document := doc; log := [] |}.

(** A result record as [json.loads] returns it. *)
Definition record (id html : string) : json :=
  JObject (<[py "id" := JStr (py id)]> (<[py "html" := JStr (py html)]> ∅)).

(** The text of that record: [{"id": "...", "html": "..."}]. *)
Definition quote : string := String (ascii_of_nat 34) EmptyString.
Definition record_text (id html : string) : pystr :=
  py ("{" ++ quote ++ "id" ++ quote ++ ": " ++ quote ++ id ++ quote ++ ", "
      ++ quote ++ "html" ++ quote ++ ": " ++ quote ++ html ++ quote ++ "}").

(** [json.loads] on the texts the examples use: the three record texts
    decode to their records; any other text of the examples, such as the
    truncated [{], is not JSON. *)
Definition decodable : list (string * string) :=
  [("/doc/p1/Text/b1", "<p>new</p>");
   ("/doc/p1/UnknownType/b1", "<p>lost</p>");
   ("/doc/p1/Table/b2", "<table>new</table>")].

Definition json_loads (text : pystr) : result json :=
  match find (fun '(id, html) => bool_decide (text = record_text id html)) decodable with
  | Some (id, html) => Ok (record id html)
  | None => Raise JSONDecodeError
  end.

Definition response (texts : list pystr) : json :=
  JObject (<[py "blocks" := JArray (JStr <$> texts)]> ∅).

(** A hook that marks the block it was given, by overwriting its markup,
    and fails on tables. *)
Definition seen : json := JStr (py "<seen/>").

Definition marking_hook (page : nat) (a : BlockId) : M World unit :=
  set_block_html a seen ;;;
  match block_type a with
  | Table => raise (Exception 7)
  | _ => ret tt
  end.

Definition processor (k : Z) : @BaseLLMProcessor unit :=
  BaseLLMProcessor_init (Some tt)
    {| max_concurrency := k; use_llm := true; disable_tqdm := false |}.

(** The same processor with the master switch off. *)
Definition disabled_processor : @BaseLLMProcessor unit :=
  BaseLLMProcessor_init (Some tt)
    {| max_concurrency := 3; use_llm := false; disable_tqdm := false |}.

(** A batch of three records, the second with a bad id. *)
Definition batch : list json :=
  [record "/doc/p1/Text/b1" "<p>new</p>";
   record "/doc/p1/UnknownType/b1" "<p>lost</p>";
   record "/doc/p1/Table/b2" "<table>new</table>"].

(** The raw texts of that batch. *)
Definition raw_batch : list pystr :=
  (fun '(id, html) => record_text id html) <$> decodable.

(** The equation of the second page and its page-one neighbour. *)
Definition equation_block : Block :=
  block (address "p2" "b1" Equation) (box 1001 1003 1005 1007) (Some "<math/>").
Definition text_block : Block :=
  block (address "p1" "b1" Text) (box 100 200 300 400) (Some "<p>one</p>").

(** The run of [rewrite_blocks] over every block of the sample document
    with two workers, along the schedule that takes the first enabled
    step. *)
Definition sample_run : @machine World nat BlockId :=
  run World_pages (World_contained_blocks None) (processor 2) marking_hook
      200 (start world).

(** The first page alone, filtered for equations: nothing matches. *)
Definition world1 : World := {| document := {| pages := [page1] |}; log := [] |}.

(** A hook that ends the interpreter, as [sys.exit()] does, and the run of
    the sample call with it. *)
Definition exiting_hook (page : nat) (a : BlockId) : M World unit :=
  raise SystemExit.

Definition exiting_run : @machine World nat BlockId :=
  run World_pages (World_contained_blocks None) (processor 2) exiting_hook
      200 (start world).



(** The sample run after twelve steps: two tasks in flight, four queued. *)
Definition midway : @machine World nat BlockId :=
  run World_pages (World_contained_blocks None) (processor 2) marking_hook
      12 (start world).

(** The same call with one worker, and with the hook of the base class. *)
Definition sequential_run : @machine World nat BlockId :=
  run World_pages (World_contained_blocks None) (processor 1) marking_hook
      200 (start world).
Definition base_run : @machine World nat BlockId :=
  run World_pages (World_contained_blocks None) (processor 2) process_rewriting_base
      200 (start world).

(** The request payload of the first text block. *)
Definition text_payload : gmap pystr json :=
  match normalize_block_json kind_name (fun _ _ => py "<p>one</p>") text_block doc page1 with
  | Ok payload => payload
  | Raise _ => ∅
  end.

(** The batch with its bad record dropped, and the same two records the
    other way round. *)
Definition good_batch : list json :=
  [record "/doc/p1/Text/b1" "<p>new</p>"; record "/doc/p1/Table/b2" "<table>new</table>"].
Definition swapped_batch : list json :=
  [record "/doc/p1/Table/b2" "<table>new</table>"; record "/doc/p1/Text/b1" "<p>new</p>"].

End Sample.

(** * Properties *)

(** ** Strings *)

Lemma lstrip_by_app_stop p x c y :
  p c = false → lstrip_by p (x ++ c :: y) = lstrip_by p x ++ c :: y.
Proof.
  intros Hc. induction x as [|a x IH]; simpl.
  - by rewrite Hc.
  - destruct (p a); [exact IH | done].
Qed.

Lemma rstrip_by_app_stop p l c b :
  p c = false → rstrip_by p (l ++ c :: b) = l ++ c :: rstrip_by p b.
Proof.
  intros Hc. unfold rstrip_by.
  rewrite rev_app_distr. simpl. rewrite <- app_assoc. simpl.
  rewrite lstrip_by_app_stop by done.
  rewrite rev_app_distr. simpl. by rewrite rev_involutive, <- app_assoc.
Qed.

Lemma lstrip_by_head p s c s' : lstrip_by p s = c :: s' → p c = false.
Proof.
  induction s as [|a s IH]; simpl; [done|].
  destruct (p a) eqn:Ha; [exact IH|]. intros [= <- <-]. done.
Qed.

Lemma split_not_nil sep s : split sep s ≠ [].
Proof. destruct s as [|c s]; simpl; [done|]. by destruct (c =? sep), (split sep s). Qed.

Lemma split_free sep s : sep ∉ s → split sep s = [s].
Proof.
  induction s as [|c s IH]; intros Hs; simpl; [done|].
  apply not_elem_of_cons in Hs as [Hc Hs].
  destruct (N.eqb_spec c sep) as [->|_]; [done|]. by rewrite IH.
Qed.

Lemma split_app_sep sep p rest :
  sep ∉ p → split sep (p ++ sep :: rest) = p :: split sep rest.
Proof.
  induction p as [|c p IH]; intros Hp; simpl.
  - by rewrite N.eqb_refl.
  - apply not_elem_of_cons in Hp as [Hc Hp].
    destruct (N.eqb_spec c sep) as [->|_]; [done|]. by rewrite IH.
Qed.

(** The first piece is empty only if the text is empty or starts with the
    separator. *)
Lemma split_head_nonempty sep c s pieces :
  c ≠ sep → split sep (c :: s) = [] :: pieces → False.
Proof.
  intros Hc. simpl. destruct (N.eqb_spec c sep) as [->|_]; [done|].
  by destruct (split sep s).
Qed.

(** ** The address codec *)

Section AddressProperties.
Context `{Schema}.

Lemma decode_segments (s : pystr) :
  decode (JStr s) =
    match segments s with
    | [_; p; t; b] =>
        match BlockTypes_getattr t with
        | Some member => BlockId_init p b member
        | None => Raise AttributeError
        end
    | _ => Raise ValueError
    end.
Proof. reflexivity. Qed.

Lemma strip_slash_headed (l b : pystr) :
  strip (slash :: l ++ slash :: b) = slash :: l ++ slash :: rstrip_by isspace b.
Proof.
  unfold strip.
  change (lstrip_by isspace (slash :: l ++ slash :: b)) with ((slash :: l) ++ slash :: b).
  by rewrite rstrip_by_app_stop.
Qed.

Lemma lstrip_slash_headed (root rest : pystr) :
  root ≠ [] → slash ∉ root →
  lstrip_slash (slash :: root ++ rest) = root ++ rest.
Proof.
  intros Hne Hfree. destruct root as [|c root]; [done|].
  apply not_elem_of_cons in Hfree as [Hc _].
  unfold lstrip_slash. cbn [lstrip_by app]. rewrite N.eqb_refl.
  destruct (N.eqb_spec slash c) as [Heq|_]; [destruct Hc; exact Heq | done].
Qed.

(** The text of an encoded address is already trimmed, and its pieces are
    its four segments. *)
Lemma segments_encode (a : BlockId) :
  well_formed a →
  segments (encode a) =
    [address_root; Ident_str (page_id a); BlockTypes_name (block_type a);
     Ident_str (block_id a)].
Proof.
  intros (Hroot & Hroot' & _ & Hp & _ & Ht & _ & Hb & Hws).
  unfold segments, encode.
  replace (slash :: address_root ++ slash :: Ident_str (page_id a)
             ++ slash :: BlockTypes_name (block_type a)
             ++ slash :: Ident_str (block_id a))
    with (slash :: (address_root ++ slash :: Ident_str (page_id a)
                      ++ slash :: BlockTypes_name (block_type a))
                ++ slash :: Ident_str (block_id a))
    by (repeat (rewrite <- app_assoc; simpl); done).
  rewrite strip_slash_headed, Hws.
  repeat (rewrite <- app_assoc; simpl).
  rewrite lstrip_slash_headed by done.
  rewrite !split_app_sep by done. by rewrite split_free.
Qed.

(** C5. Address round-trip: decoding the canonical text of a well-formed
    address gives the address back, [decode(encode(a)) == a]. *)
Theorem decode_encode (a : BlockId) :
  well_formed a → decode (JStr (encode a)) = Ok a.
Proof.
  intros Ha. rewrite decode_segments, segments_encode by done.
  destruct Ha as (_ & _ & Hp & _ & Ht & _ & Hb & _).
  unfold BlockId_init. rewrite Ht, Hp, Hb. by destruct a.
Qed.

End AddressProperties.

(** ** The rewrite applier *)

Section RewriteProperties.
Context `{Schema}.

Lemma find_alter_first_same {A} (p : A → bool) (f : A → A) (l : list A) :
  (∀ x, p (f x) = p x) → find p (alter_first p f l) = f <$> find p l.
Proof.
  intros Hf. induction l as [|x l IH]; simpl; [done|].
  destruct (p x) eqn:Hx; simpl.
  - by rewrite Hf, Hx.
  - by rewrite Hx.
Qed.

Lemma find_alter_first_other {A} (p q : A → bool) (f : A → A) (l : list A) :
  (∀ x, q (f x) = q x) → (∀ x, p x = true → q x = false) →
  find q (alter_first p f l) = find q l.
Proof.
  intros Hf Hpq. induction l as [|x l IH]; simpl; [done|].
  destruct (p x) eqn:Hx; simpl.
  - by rewrite Hf, (Hpq x Hx).
  - by rewrite IH.
Qed.

Lemma alter_first_app {A} (p : A → bool) (f : A → A) (l1 l2 : list A) :
  alter_first p f (l1 ++ l2) =
    if existsb p l1 then alter_first p f l1 ++ l2 else l1 ++ alter_first p f l2.
Proof.
  induction l1 as [|x l1 IH]; simpl; [done|].
  destruct (p x); simpl; [done|]. rewrite IH. by destruct (existsb p l1).
Qed.

Lemma all_blocks_assign_html a v d :
  all_blocks (assign_html a v d) = alter_first (has_id a) (set_html v) (all_blocks d).
Proof.
  destruct d as [pgs]. unfold all_blocks, assign_html. simpl.
  induction pgs as [|pg pgs IH]; simpl; [done|].
  rewrite alter_first_app.
  destruct (existsb (has_id a) (PageGroup_children pg)); simpl; [done|].
  by rewrite IH.
Qed.

Lemma has_id_set_html a v b : has_id a (set_html v b) = has_id a b.
Proof. done. Qed.

Lemma get_block_assign_html a v d a' :
  get_block (assign_html a v d) a' =
    if decide (a = a') then set_html v <$> get_block d a' else get_block d a'.
Proof.
  unfold get_block. rewrite all_blocks_assign_html.
  destruct (decide (a = a')) as [->|Hne].
  - by apply find_alter_first_same.
  - apply find_alter_first_other; [done|].
    intros b. unfold has_id. rewrite !bool_decide_eq_true, bool_decide_eq_false.
    congruence.
Qed.

Lemma html_at_assign_html a v d a' b :
  get_block d a = Some b →
  html_at (assign_html a v d) a' = if decide (a = a') then Some v else html_at d a'.
Proof.
  intros Hb. unfold html_at. rewrite get_block_assign_html.
  destruct (decide (a = a')) as [<-|]; [|done]. by rewrite Hb.
Qed.

(** Overwriting the markup of a block that has a markup field changes what
    no record resolves to. *)
Lemma resolves_assign_html a v d b block_data :
  get_block d a = Some b → is_Some (Block_html b) →
  resolves (assign_html a v d) block_data = resolves d block_data.
Proof.
  intros Hb Hhtml. unfold resolves.
  destruct (getitem block_data (py "id")) as [id_field|]; [|done].
  destruct (decode id_field) as [a'|]; [|done].
  rewrite get_block_assign_html.
  destruct (decide (a = a')) as [<-|]; [|done].
  rewrite Hb. simpl. by rewrite (bool_decide_eq_true_2 _ Hhtml).
Qed.

Lemma resolves_apply_record d block_data block_data' :
  resolves (apply_record d block_data) block_data' = resolves d block_data'.
Proof.
  unfold apply_record. destruct (resolves d block_data) as [[a v]|] eqn:Hr; [|done].
  unfold resolves in Hr.
  destruct (getitem block_data (py "id")) as [id_field|]; [|done].
  destruct (decode id_field) as [a0|]; [|done].
  destruct (get_block d a0) as [b|] eqn:Hb; [|done].
  case_bool_decide as Hhtml; [|done].
  destruct (getitem block_data (py "html")); [|done].
  injection Hr as <- <-. by eapply resolves_assign_html.
Qed.

(** What the [try] of [handle_rewrites] can raise is an instance of
    [Exception]. *)
Lemma getitem_raises_Exception (v : json) (key : pystr) e :
  getitem v key = Raise e → is_Exception e = true.
Proof.
  destruct v as [| | | | | |fields]; simpl; try (by intros [= <-]).
  destruct (fields !! key); [done | by intros [= <-]].
Qed.

Lemma decode_raises_Exception (id_field : json) e :
  decode id_field = Raise e → is_Exception e = true.
Proof.
  unfold decode, strip_method, BlockId_init.
  destruct id_field as [| | | |s| |]; simpl; try (by intros [= <-]).
  destruct (split slash (lstrip_slash (strip s))) as [|r [|p [|t [|b [|x l]]]]];
    try (by intros [= <-]).
  destruct (BlockTypes_getattr t); [|by intros [= <-]].
  destruct (Ident_validate p), (Ident_validate b); try done; by intros [= <-].
Qed.

(** One iteration of the loop on a record that holds ["id"]: the [try]
    either completes or its exception is caught and logged. *)
Lemma iteration_caught (block_data : json) (w : World) :
  has_id_key block_data →
  ∃ lg, try_except (rewrite_one block_data) (rewrite_failed block_data) w
        = ({| document := apply_record (document w) block_data; log := lg |}, Ok tt).
Proof.
  intros (fields & id_field & -> & Hid).
  unfold try_except, rewrite_one, rewrite_failed, apply_record, resolves, bind, lift,
    get, logger, set_block_html, modify, ret.
  simpl. rewrite Hid.
  destruct (decode id_field) as [a|e] eqn:Hd; simpl;
    [|rewrite (decode_raises_Exception _ _ Hd); eauto].
  destruct (get_block (document w) a) as [b|]; simpl; [|eauto].
  case_bool_decide; simpl; [|destruct w; eauto].
  destruct (fields !! py "html"); simpl; eauto.
Qed.

Lemma for_each_app {S A} (body : A → M S unit) (xs ys : list A) (s : S) :
  for_each body (xs ++ ys) s =
    match for_each body xs s with
    | (s', Ok _) => for_each body ys s'
    | (s', Raise e) => (s', Raise e)
    end.
Proof.
  revert s. induction xs as [|x xs IH]; intros s; simpl; [done|].
  unfold bind. destruct (body x s) as [s' [[]|e]]; [apply IH | done].
Qed.

Lemma handle_rewrites_fold (blocks : list json) (w : World) :
  Forall has_id_key blocks →
  ∃ lg, handle_rewrites blocks w
        = ({| document := foldl apply_record (document w) blocks; log := lg |}, Ok tt).
Proof.
  intros Hall. revert w. induction Hall as [|block_data blocks Hid _ IH]; intros w.
  - exists (log w). by destruct w.
  - destruct (iteration_caught block_data w Hid) as [lg Hlg].
    unfold handle_rewrites in *. simpl. unfold bind at 1. rewrite Hlg.
    apply IH.
Qed.

Lemma html_at_apply_record d block_data a :
  html_at (apply_record d block_data) a =
    match resolves d block_data with
    | Some (a', html) => if bool_decide (a' = a) then Some html else html_at d a
    | None => html_at d a
    end.
Proof.
  unfold apply_record. destruct (resolves d block_data) as [[a' v]|] eqn:Hr; [|done].
  unfold resolves in Hr.
  destruct (getitem block_data (py "id")) as [id_field|]; [|done].
  destruct (decode id_field) as [a0|]; [|done].
  destruct (get_block d a0) as [b|] eqn:Hb; [|done].
  case_bool_decide; [|done].
  destruct (getitem block_data (py "html")); [|done].
  injection Hr as <- <-. rewrite (html_at_assign_html _ _ _ _ _ Hb).
  by destruct (decide (a0 = a)); [rewrite bool_decide_eq_true_2 | rewrite bool_decide_eq_false_2].
Qed.

Lemma html_at_foldl (d0 d : Document) (blocks : list json) (a : BlockId) :
  (∀ block_data, resolves d block_data = resolves d0 block_data) →
  html_at (foldl apply_record d blocks) a = last_rewrite d0 a blocks (html_at d a).
Proof.
  revert d. induction blocks as [|block_data blocks IH]; intros d Hd; simpl; [done|].
  rewrite IH.
  - unfold last_rewrite. f_equal. by rewrite html_at_apply_record, Hd.
  - intros r. by rewrite resolves_apply_record.
Qed.

(** A record whose address does not decode is logged and skipped. *)
Lemma iteration_decode_error fields id_field e (w : World) :
  fields !! py "id" = Some id_field → decode id_field = Raise e →
  try_except (rewrite_one (JObject fields)) (rewrite_failed (JObject fields)) w
  = ({| document := document w; log := log w ++ [Debug_error_parsing id_field e] |},
     Ok tt).
Proof.
  intros Hid He.
  unfold try_except, rewrite_one, rewrite_failed, bind, lift, logger, modify.
  simpl. by rewrite Hid, He, (decode_raises_Exception _ _ He).
Qed.

(** A record whose address names no block is logged and skipped. *)
Lemma iteration_lookup_miss fields id_field a (w : World) :
  fields !! py "id" = Some id_field → decode id_field = Ok a →
  get_block (document w) a = None →
  try_except (rewrite_one (JObject fields)) (rewrite_failed (JObject fields)) w
  = ({| document := document w; log := log w ++ [Debug_not_found a] |}, Ok tt).
Proof.
  intros Hid Ha Hmiss.
  unfold try_except, rewrite_one, rewrite_failed, bind, lift, get, logger, modify.
  simpl. by rewrite Hid, Ha, Hmiss.
Qed.

(** If some record of the batch resolves to [a], the block at [a] ends with
    the markup of a record of the batch that resolves to [a]. *)
Lemma last_rewrite_some d a blocks old block_data v :
  block_data ∈ blocks → resolves d block_data = Some (a, v) →
  ∃ block_data' v', block_data' ∈ blocks ∧ resolves d block_data' = Some (a, v')
                    ∧ last_rewrite d a blocks old = Some v'.
Proof.
  unfold last_rewrite. revert old.
  induction blocks as [|r blocks IH] using rev_ind; intros old Hin Hr.
  - by apply elem_of_nil in Hin.
  - rewrite fold_left_app. simpl.
    assert (Hlast : r ∈ blocks ++ [r])
      by (apply elem_of_app; right; by apply list_elem_of_singleton).
    assert (Hearlier : block_data ∈ blocks →
              ∃ block_data' v', block_data' ∈ blocks ++ [r]
                ∧ resolves d block_data' = Some (a, v')
                ∧ fold_left (fun acc block_data0 =>
                     match resolves d block_data0 with
                     | Some (a', html) => if bool_decide (a' = a) then Some html else acc
                     | None => acc
                     end) blocks old = Some v').
    { intros Hin'. destruct (IH old Hin' Hr) as (r0 & v0 & Hr0 & ? & ?).
      exists r0, v0. split_and!; [apply elem_of_app; by left | done | done]. }
    apply elem_of_app in Hin as [Hin|Hin%list_elem_of_singleton].
    + destruct (resolves d r) as [[a' v']|] eqn:Hr'; [|by apply Hearlier].
      case_bool_decide as Ha; [|by apply Hearlier].
      subst a'. by exists r, v'.
    + subst block_data. rewrite Hr, bool_decide_eq_true_2 by done. by exists r, v.
Qed.

(** If no record of the batch resolves to [a], the block at [a] keeps its
    markup. *)
Lemma last_rewrite_none d a blocks old :
  (∀ block_data v, block_data ∈ blocks → resolves d block_data ≠ Some (a, v)) →
  last_rewrite d a blocks old = old.
Proof.
  unfold last_rewrite. revert old.
  induction blocks as [|r blocks IH]; intros old Hnone; simpl; [done|].
  rewrite IH by (intros r' v' Hin; apply Hnone; by apply list_elem_of_further).
  destruct (resolves d r) as [[a' v']|] eqn:Hr; [|done].
  case_bool_decide; [|done]. subst a'.
  destruct (Hnone r v'); [apply list_elem_of_here | done].
Qed.

(** [handle_rewrites] isolates the records of a batch of dicts that hold
    ["id"]: the call returns; the block at every address ends with the
    markup of the last record that resolves to it; a block named by a valid
    record is updated and every other block is untouched; a record whose
    address does not decode, or names no block, is logged and skipped. *)
Lemma handle_rewrites_isolation (blocks : list json) (w : World) :
  Forall has_id_key blocks →
  let w' := (handle_rewrites blocks w).1 in
  (handle_rewrites blocks w).2 = Ok tt
  ∧ (∀ a, html_at (document w') a
          = last_rewrite (document w) a blocks (html_at (document w) a))
  ∧ (∀ block_data a v,
       block_data ∈ blocks → resolves (document w) block_data = Some (a, v) →
       ∃ block_data' v', block_data' ∈ blocks
         ∧ resolves (document w) block_data' = Some (a, v')
         ∧ html_at (document w') a = Some v')
  ∧ (∀ a, (∀ block_data v, block_data ∈ blocks →
                            resolves (document w) block_data ≠ Some (a, v)) →
          html_at (document w') a = html_at (document w) a)
  ∧ (∀ fields id_field w1, fields !! py "id" = Some id_field →
       (∀ e, decode id_field = Raise e →
             try_except (rewrite_one (JObject fields)) (rewrite_failed (JObject fields)) w1
             = ({| document := document w1;
                   log := log w1 ++ [Debug_error_parsing id_field e] |}, Ok tt))
       ∧ (∀ a, decode id_field = Ok a → get_block (document w1) a = None →
               try_except (rewrite_one (JObject fields)) (rewrite_failed (JObject fields)) w1
               = ({| document := document w1; log := log w1 ++ [Debug_not_found a] |},
                  Ok tt))).
Proof.
  intros Hall w'.
  destruct (handle_rewrites_fold blocks w Hall) as [lg Hrun].
  assert (Hhtml : ∀ a, html_at (document w') a
                       = last_rewrite (document w) a blocks (html_at (document w) a)).
  { intros a. subst w'. rewrite Hrun. simpl. by apply html_at_foldl. }
  split_and!.
  - by rewrite Hrun.
  - exact Hhtml.
  - intros block_data a v Hin Hr. rewrite Hhtml. by eapply last_rewrite_some.
  - intros a Hnone. rewrite Hhtml. by apply last_rewrite_none.
  - intros fields id_field w1 Hid. split.
    + intros e. by apply iteration_decode_error.
    + intros a. by apply iteration_lookup_miss.
Qed.

Lemma loads_all_ok (json_loads : pystr → result json) raws blocks :
  Forall2 (fun raw v => json_loads raw = Ok v) raws blocks →
  loads_all json_loads (JStr <$> raws) = Ok blocks.
Proof.
  induction 1 as [|raw v raws blocks Hraw _ IH]; [done|].
  rewrite fmap_cons. simpl. by rewrite Hraw, IH.
Qed.

Lemma loads_all_raise (json_loads : pystr → result json) before raw after e :
  Forall (fun r => ∃ v, json_loads r = Ok v) before → json_loads raw = Raise e →
  loads_all json_loads (JStr <$> (before ++ raw :: after)) = Raise e.
Proof.
  intros Hbefore Hraw. rewrite fmap_app, fmap_cons.
  induction Hbefore as [|r before [v Hr] _ IH].
  - simpl. by rewrite Hraw.
  - rewrite fmap_cons. simpl. by rewrite Hr, IH.
Qed.

(** C1 (amended). [applyRewrites] decodes the whole batch before it applies
    any record: if a raw record fails JSON decoding, [load_blocks] raises
    and no record is applied. A batch that decodes to dicts holding ["id"]
    is applied record by record: the call returns without raising; the
    block at every address ends with the markup of the last record that
    resolves to it, whatever the other records are, so every block named by
    a valid record is updated and every other block is untouched; and a
    record whose address does not decode, or names no block, is logged and
    skipped. *)
Theorem apply_rewrites_isolates_decoded_records
    (json_loads : pystr → result json) (response : json) (raws : list pystr)
    (w : World) :
  getitem response (py "blocks") = Ok (JArray (JStr <$> raws)) →
  (∀ before raw after e,
     raws = before ++ raw :: after →
     Forall (fun r => ∃ v, json_loads r = Ok v) before → json_loads raw = Raise e →
     apply_rewrites json_loads response w = (w, Raise e))
  ∧ (∀ blocks,
       Forall2 (fun raw v => json_loads raw = Ok v) raws blocks →
       Forall has_id_key blocks →
       let w' := (apply_rewrites json_loads response w).1 in
       (apply_rewrites json_loads response w).2 = Ok tt
       ∧ (∀ a, html_at (document w') a
               = last_rewrite (document w) a blocks (html_at (document w) a))
       ∧ (∀ block_data a v,
            block_data ∈ blocks → resolves (document w) block_data = Some (a, v) →
            ∃ block_data' v', block_data' ∈ blocks
              ∧ resolves (document w) block_data' = Some (a, v')
              ∧ html_at (document w') a = Some v')
       ∧ (∀ a, (∀ block_data v, block_data ∈ blocks →
                                 resolves (document w) block_data ≠ Some (a, v)) →
               html_at (document w') a = html_at (document w) a))
  ∧ (∀ fields id_field w1, fields !! py "id" = Some id_field →
       (∀ e, decode id_field = Raise e →
             try_except (rewrite_one (JObject fields)) (rewrite_failed (JObject fields)) w1
             = ({| document := document w1;
                   log := log w1 ++ [Debug_error_parsing id_field e] |}, Ok tt))
       ∧ (∀ a, decode id_field = Ok a → get_block (document w1) a = None →
               try_except (rewrite_one (JObject fields)) (rewrite_failed (JObject fields)) w1
               = ({| document := document w1; log := log w1 ++ [Debug_not_found a] |},
                  Ok tt))).
Proof.
  intros Hresponse. split_and!.
  - intros before raw after e -> Hbefore Hraw.
    unfold apply_rewrites, bind, lift, load_blocks. rewrite Hresponse. simpl.
    by rewrite (loads_all_raise json_loads before raw after e).
  - intros blocks Hdecoded Hids.
    assert (Hrun : apply_rewrites json_loads response w = handle_rewrites blocks w).
    { unfold apply_rewrites, bind, lift, load_blocks. rewrite Hresponse. simpl.
      by rewrite (loads_all_ok json_loads raws blocks). }
    rewrite Hrun.
    destruct (handle_rewrites_isolation blocks w Hids) as (? & ? & ? & ? & _).
    by split_and!.
  - apply (handle_rewrites_isolation [] w). constructor.
Qed.

(** C10. On a batch of dicts that all hold ["id"], [handle_rewrites] never
    raises: every failure inside the loop is caught and the loop goes on.
    If a dict lacks ["id"], the [except] clause itself raises [KeyError]
    when it reads [block_data['id']] for its message: the call raises and
    the records after it are not processed. *)
Theorem handle_rewrites_raises_only_without_id :
  (∀ (blocks : list json) (w : World),
     Forall has_id_key blocks →
     ∃ lg, handle_rewrites blocks w
           = ({| document := foldl apply_record (document w) blocks; log := lg |},
              Ok tt))
  ∧ (∀ (pre post : list json) (fields : gmap pystr json) (w : World),
       Forall has_id_key pre → fields !! py "id" = None →
       handle_rewrites (pre ++ JObject fields :: post) w
       = ((handle_rewrites pre w).1, Raise KeyError)).
Proof.
  split.
  - apply handle_rewrites_fold.
  - intros pre post fields w Hpre Hid.
    destruct (handle_rewrites_fold pre w Hpre) as [lg Hrun].
    unfold handle_rewrites in *. rewrite for_each_app, Hrun. simpl.
    unfold bind, try_except, rewrite_one, rewrite_failed, bind, lift.
    simpl. by rewrite Hid.
Qed.

End RewriteProperties.

(** ** Decoding errors *)

Section DecodingErrors.
Context `{Schema}.

Lemma split_length sep s :
  length (split sep s) = S (length (filter (fun c => c = sep) s)).
Proof.
  induction s as [|c s IH]; simpl; [done|].
  rewrite filter_cons. destruct (N.eqb_spec c sep) as [->|Hne].
  - rewrite decide_True by done. simpl. by rewrite IH.
  - rewrite decide_False by done. rewrite <- IH.
    destruct (split sep s) eqn:Hs; [by apply split_not_nil in Hs | done].
Qed.

Lemma lstrip_by_decomp p s :
  ∃ t, s = t ++ lstrip_by p s ∧ Forall (fun c => p c = true) t.
Proof.
  induction s as [|c s (t & Heq & Ht)]; simpl.
  - by exists [].
  - destruct (p c) eqn:Hc.
    + exists (c :: t). split; [simpl; by f_equal | by constructor].
    + by exists [].
Qed.

Lemma rstrip_by_decomp p s :
  ∃ t, s = rstrip_by p s ++ t ∧ Forall (fun c => p c = true) t.
Proof.
  destruct (lstrip_by_decomp p (rev s)) as (t & Heq & Ht).
  exists (rev t). split.
  - unfold rstrip_by. rewrite <- rev_app_distr, <- Heq. by rewrite rev_involutive.
  - apply Forall_forall. intros c Hc%list_elem_of_In%in_rev.
    by apply (proj1 (Forall_forall _ _) Ht), list_elem_of_In.
Qed.

Lemma lstrip_by_app_nonempty p x y :
  lstrip_by p x ≠ [] → lstrip_by p (x ++ y) = lstrip_by p x ++ y.
Proof.
  induction x as [|c x IH]; simpl; [done|]. by destruct (p c).
Qed.

(** The first segment is empty only for the empty text. *)
Lemma segments_root s r rest : segments s = r :: rest → r = [] → rest = [].
Proof.
  unfold segments. destruct (lstrip_slash (strip s)) as [|c x] eqn:Hx.
  - by intros [= <- <-].
  - intros Hsplit ->. apply lstrip_by_head in Hx.
    destruct (split_head_nonempty slash c x rest); [|done].
    intros ->. by rewrite N.eqb_refl in Hx.
Qed.

(** A successful decoding saw exactly four segments, none of them empty, the
    third the name of a member. *)
Lemma decode_ok_inv (s : pystr) (a : BlockId) :
  Ident_validate [] = None → BlockTypes_getattr [] = None →
  decode (JStr s) = Ok a →
  ∃ r p t b, segments s = [r; p; t; b] ∧ r ≠ [] ∧ p ≠ [] ∧ t ≠ [] ∧ b ≠ []
    ∧ BlockTypes_getattr t = Some (block_type a)
    ∧ Ident_validate p = Some (page_id a) ∧ Ident_validate b = Some (block_id a).
Proof.
  intros Hid Hty. rewrite decode_segments.
  destruct (segments s) as [|r [|p [|t [|b [|]]]]] eqn:Hseg; try done.
  destruct (BlockTypes_getattr t) as [member|] eqn:Ht; [|done].
  unfold BlockId_init.
  destruct (Ident_validate p) as [pid|] eqn:Hp; [|done].
  destruct (Ident_validate b) as [bid|] eqn:Hb; [|done].
  intros [= <-]. exists r, p, t, b. simpl. split_and!; try done.
  - intros ->. by pose proof (segments_root _ _ _ Hseg eq_refl).
  - intros ->. by rewrite Hid in Hp.
  - intros ->. by rewrite Hty in Ht.
  - intros ->. by rewrite Hid in Hb.
Qed.

(** A trailing separator is not trimmed: it adds a fifth, empty segment. *)
Lemma decode_trailing_separator (s : pystr) (a : BlockId) :
  decode (JStr s) = Ok a → decode (JStr (s ++ [slash])) = Raise ValueError.
Proof.
  rewrite !decode_segments. intros Hok.
  assert (Hlen : length (segments s) = 4%nat).
  { by destruct (segments s) as [|r [|p [|t [|b [|]]]]]. }
  assert (Hlen' : length (segments (s ++ [slash])) = 5%nat).
  { clear Hok. unfold segments, strip in *.
    rewrite lstrip_by_app_stop by done.
    rewrite rstrip_by_app_stop by done.
    change (rstrip_by isspace []) with (@nil N).
    destruct (rstrip_by_decomp isspace (lstrip_by isspace s)) as (ws & Heq & Hws).
    set (x := rstrip_by isspace (lstrip_by isspace s)) in *.
    rewrite Heq, <- app_assoc.
    assert (Hne : lstrip_slash x ≠ []).
    { intros Hnil. by rewrite Hnil in Hlen. }
    unfold lstrip_slash in *. rewrite lstrip_by_app_nonempty by done.
    rewrite split_length in *. rewrite !filter_app, !length_app.
    replace (filter (fun c => c = slash) ws) with (@nil N).
    - rewrite (filter_cons_True _ slash) by done. rewrite filter_nil. simpl. lia.
    - symmetry. clear Heq. induction Hws as [|c ws Hc _ IH]; [done|].
      rewrite filter_cons_False; [exact IH | by intros ->]. }
  by destruct (segments (s ++ [slash])) as [|r [|p [|t [|b [|]]]]].
Qed.

(** C3 (amended). Address decoding trims surrounding whitespace and leading
    separators, but no trailing separator; it requires exactly four
    segments and resolves the third against the enumeration. Provided
    [BlockId] rejects an empty field and the enumeration has no member
    with an empty name, every input with a segment-count mismatch, an
    unknown type name or an empty segment raises, and [handle_rewrites]
    catches the exception: the record is logged, the document is
    untouched and the call returns. *)
Theorem decode_malformed_raises (s : pystr) :
  Ident_validate [] = None → BlockTypes_getattr [] = None →
  (∀ a, decode (JStr s) = Ok a →
     (∃ r p t b, segments s = [r; p; t; b] ∧ r ≠ [] ∧ p ≠ [] ∧ t ≠ [] ∧ b ≠ []
        ∧ BlockTypes_getattr t = Some (block_type a)
        ∧ Ident_validate p = Some (page_id a) ∧ Ident_validate b = Some (block_id a))
     ∧ decode (JStr (s ++ [slash])) = Raise ValueError)
  ∧ (length (segments s) ≠ 4%nat ∨ [] ∈ segments s
     ∨ (∃ t, segments s !! 2%nat = Some t ∧ BlockTypes_getattr t = None) →
     (∃ e, decode (JStr s) = Raise e)
     ∧ ∀ fields w, fields !! py "id" = Some (JStr s) →
         ∃ e, handle_rewrites [JObject fields] w
              = ({| document := document w;
                    log := log w ++ [Debug_error_parsing (JStr s) e] |}, Ok tt)).
Proof.
  intros Hid Hty. split.
  - intros a Ha. split; [by apply decode_ok_inv | by eapply decode_trailing_separator].
  - intros Hbad.
    assert (Herr : ∃ e, decode (JStr s) = Raise e).
    { destruct (decode (JStr s)) as [a|e] eqn:Hdec; [|by eauto].
      destruct (decode_ok_inv s a Hid Hty Hdec)
        as (r & p & t & b & Hseg & Hr & Hp & Ht & Hb & Hmember & _).
      rewrite Hseg in Hbad. destruct Hbad as [Hlen|[Hempty|(t' & Ht' & Hnone)]].
      - done.
      - rewrite !elem_of_cons, elem_of_nil in Hempty.
        destruct Hempty as [<-|[<-|[<-|[<-|[]]]]]; done.
      - simpl in Ht'. injection Ht' as <-. by rewrite Hnone in Hmember. }
    split; [done|]. intros fields w Hfields. destruct Herr as [e He].
    exists e. unfold handle_rewrites. simpl. unfold bind.
    by rewrite (iteration_decode_error fields (JStr s) e w Hfields He).
Qed.

End DecodingErrors.

(** ** The geometry normalizer *)

Section NormalizeProperties.
Context `{Schema}.
Variable BlockTypes_str : BlockTypes → pystr.
Variable render_html : Block → Document → pystr.

(** A positive float is not zero, so dividing by it does not raise. *)
Lemma positive_nonzero (x : float) :
  PrimFloat.ltb 0 x = true → PrimFloat.eqb x 0 = false.
Proof.
  rewrite FloatAxioms.ltb_spec, FloatAxioms.eqb_spec.
  change (Prim2SF 0) with (S754_zero false).
  unfold SFltb, SFeqb.
  destruct (Prim2SF x) as [s|s| |s m e]; simpl; try done; by destruct s.
Qed.

Lemma truediv_positive (a b : float) :
  PrimFloat.ltb 0 b = true → truediv a b = Ok (PrimFloat.div a b).
Proof. intros Hb. unfold truediv. by rewrite positive_nonzero. Qed.

Lemma normalized_bbox_positive (block : Block) (page : PageGroup) (x0 y0 x1 y1 : float) :
  bbox (Block_polygon block) = [x0; y0; x1; y1] →
  PrimFloat.ltb 0 (width (PageGroup_polygon page)) = true →
  PrimFloat.ltb 0 (height (PageGroup_polygon page)) = true →
  normalized_bbox block page =
    Ok [PrimFloat.mul (PrimFloat.div x0 (width (PageGroup_polygon page))) 1000;
        PrimFloat.mul (PrimFloat.div y0 (height (PageGroup_polygon page))) 1000;
        PrimFloat.mul (PrimFloat.div x1 (width (PageGroup_polygon page))) 1000;
        PrimFloat.mul (PrimFloat.div y1 (height (PageGroup_polygon page))) 1000].
Proof.
  intros Hbbox Hw Hh. unfold normalized_bbox. rewrite Hbbox.
  unfold index. simpl. by rewrite !truediv_positive.
Qed.

(** C4 (amended). For a page of positive width [W] and height [H] and a
    block box [(x0, y0, x1, y1)], [normalize_block_json] puts under
    ["bbox"] the box [((x0/W)*1000, (y0/H)*1000, (x1/W)*1000, (y1/H)*1000)],
    each division and each multiplication a binary64 operation in that
    order, with no clamping: a box that sticks out of the page leaves
    [0, 1000]. A 1000 x 2000 page with box [(100, 200, 300, 400)] gives
    [(100, 100, 300, 200)]. *)
Theorem normalize_block_json_bbox :
  (∀ (block : Block) (document : Document) (page : PageGroup) (x0 y0 x1 y1 : float),
     bbox (Block_polygon block) = [x0; y0; x1; y1] →
     PrimFloat.ltb 0 (width (PageGroup_polygon page)) = true →
     PrimFloat.ltb 0 (height (PageGroup_polygon page)) = true →
     ∃ payload,
       normalize_block_json BlockTypes_str render_html block document page = Ok payload
       ∧ payload !! py "bbox" =
           Some (JArray
             [JFloat (PrimFloat.mul (PrimFloat.div x0 (width (PageGroup_polygon page))) 1000);
              JFloat (PrimFloat.mul (PrimFloat.div y0 (height (PageGroup_polygon page))) 1000);
              JFloat (PrimFloat.mul (PrimFloat.div x1 (width (PageGroup_polygon page))) 1000);
              JFloat (PrimFloat.mul (PrimFloat.div y1 (height (PageGroup_polygon page))) 1000)]))
  ∧ (∀ (block : Block) (page : PageGroup),
       bbox (Block_polygon block) = [100; 200; 300; 400]%float →
       width (PageGroup_polygon page) = 1000%float →
       height (PageGroup_polygon page) = 2000%float →
       normalized_bbox block page = Ok [100; 100; 300; 200]%float)
  ∧ (∀ (block : Block) (page : PageGroup),
       bbox (Block_polygon block) = [-50; 1900; 2500; 2100]%float →
       width (PageGroup_polygon page) = 2000%float →
       height (PageGroup_polygon page) = 2000%float →
       normalized_bbox block page = Ok [-25; 950; 1250; 1050]%float).
Proof.
  split_and!.
  - intros block document page x0 y0 x1 y1 Hbbox Hw Hh.
    unfold normalize_block_json.
    rewrite (normalized_bbox_positive block page x0 y0 x1 y1) by done.
    eexists. split; [reflexivity|].
    rewrite lookup_insert_ne by (by vm_compute).
    rewrite lookup_insert_ne by (by vm_compute).
    by rewrite lookup_insert_eq.
  - intros block page Hbbox Hw Hh. unfold normalized_bbox.
    rewrite Hbbox, Hw, Hh. reflexivity.
  - intros block page Hbbox Hw Hh. unfold normalized_bbox.
    rewrite Hbbox, Hw, Hh. reflexivity.
Qed.

End NormalizeProperties.

(** ** The whole-document orchestrator *)

Lemma picks_spec {A} (l : list A) (x : A) (rest : list A) :
  (x, rest) ∈ picks l ↔ ∃ before after, l = before ++ x :: after ∧ rest = before ++ after.
Proof.
  revert rest. induction l as [|y l IH]; intros rest; simpl.
  - rewrite elem_of_nil. split; [done|]. intros ([|??] & ? & ? & _); done.
  - rewrite elem_of_cons, list_elem_of_fmap. split.
    + intros [[= -> ->]|([z rest'] & [= -> ->] & Hin)].
      * by exists [], l.
      * apply IH in Hin as (before & after & -> & ->). by exists (y :: before), after.
    + intros ([|z before] & after & Heq & ->); simpl in *.
      * injection Heq as <- <-. by left.
      * injection Heq as <- ->. right. exists (x, before ++ after).
        split; [done|]. apply IH. by exists before, after.
Qed.

Section OrchestratorProperties.
Context {St Pg Bk Service : Type}.
Variable document_pages : St → list Pg.
Variable contained_blocks : St → Pg → list Bk.
Variable self : @BaseLLMProcessor Service.
Variable process_rewriting : Pg → Bk → M St unit.

Local Abbreviation steps_to := (step document_pages contained_blocks self process_rewriting).
Local Abbreviation successors := (next document_pages contained_blocks self process_rewriting).
Local Abbreviation transition :=
  (transition document_pages contained_blocks self process_rewriting).
Local Abbreviation matching_count := (total_blocks document_pages contained_blocks).
Local Abbreviation matching_pairs := (all_tasks document_pages contained_blocks).
Local Abbreviation machine := (@machine St Pg Bk).

Lemma idle_true (m : machine) : idle m = true ↔ queue m = [] ∧ running m = [].
Proof. unfold idle. destruct (queue m), (running m); split; (done || by intros []). Qed.

(** The executable successor function and the case-by-case relation are the
    same relation. *)
Lemma step_transition (m m' : machine) : steps_to m m' ↔ transition m m'.
Proof.
  unfold step, next. rewrite elem_of_app. split.
  - intros [Hmain|Hpool].
    + unfold main_steps in Hmain. destruct (main m) as [|ps ts| |r|r] eqn:Hpc.
      * destruct (Nat.eqb_spec (matching_count (state m)) 0) as [Hzero|Hsome].
        { apply list_elem_of_singleton in Hmain as ->. by constructor. }
        destruct (Z.leb_spec (max_concurrency (config self)) 0) as [Hk|Hk];
          apply list_elem_of_singleton in Hmain as ->.
        { by apply count_no_pool. }
        { by apply count_some. }
      * destruct ts as [|t ts], ps as [|page ps];
          apply list_elem_of_singleton in Hmain as ->.
        { by apply all_submitted. }
        { by apply next_page. }
        { by eapply submit_task. }
        { by eapply submit_task. }
      * apply elem_of_app in Hmain as [Hexit|Hyield].
        { destruct (idle m) eqn:Hidle; simpl in Hexit;
            [|by apply elem_of_nil in Hexit].
          case_bool_decide as Hdone; [|by apply elem_of_nil in Hexit].
          apply list_elem_of_singleton in Hexit as ->.
          apply idle_true in Hidle as [??].
          apply all_yielded; [done..|]. by apply length_zero_iff_nil. }
        { apply list_elem_of_fmap in Hyield as ([[t r] rest] & -> & Hin).
          apply picks_spec in Hin as (before & after & Hdone & ->).
          destruct r as [u|e]; [by eapply yield_ok | by eapply yield_raise]. }
      * destruct (idle m) eqn:Hidle; [|by apply elem_of_nil in Hmain].
        apply list_elem_of_singleton in Hmain as ->.
        apply idle_true in Hidle as [??]. by apply shutdown.
      * by apply elem_of_nil in Hmain.
    + unfold worker_steps in Hpool.
      destruct (pool_alive (main m)) eqn:Halive; [|by apply elem_of_nil in Hpool].
      apply elem_of_app in Hpool as [Hstart|Hfinish].
      * destruct (queue m) as [|t rest] eqn:Hq; [by apply elem_of_nil in Hstart|].
        destruct (Nat.ltb_spec (length (running m)) (workers self)) as [Hfree|];
          [|by apply elem_of_nil in Hstart].
        apply list_elem_of_singleton in Hstart as ->. by eapply worker_start.
      * apply list_elem_of_fmap in Hfinish as ([t rest] & -> & Hin).
        apply picks_spec in Hin as (before & after & Hrun & ->).
        pose proof (worker_finish document_pages contained_blocks self
                      process_rewriting m t before after Halive Hrun) as Hstep.
        by destruct (process_rewriting t.1 t.2 (state m)).
  - intros Htrans. destruct Htrans as
      [Hpc Hzero|Hpc Hsome Hk|Hpc Hsome Hk|ps t ts Hpc|page ps Hpc|Hpc
      |Hpc Hq Hr Hd|t u before after Hpc Hd|t e before after Hpc Hd|r Hpc Hq Hr
      |t rest Halive Hq Hfree|t before after Halive Hrun].
    + left. unfold main_steps. rewrite Hpc, Hzero. by apply list_elem_of_singleton.
    + left. unfold main_steps. rewrite Hpc.
      destruct (Nat.eqb_spec (matching_count (state m)) 0); [done|].
      destruct (Z.leb_spec (max_concurrency (config self)) 0); [|lia].
      by apply list_elem_of_singleton.
    + left. unfold main_steps. rewrite Hpc.
      destruct (Nat.eqb_spec (matching_count (state m)) 0); [done|].
      destruct (Z.leb_spec (max_concurrency (config self)) 0); [lia|].
      by apply list_elem_of_singleton.
    + left. unfold main_steps. rewrite Hpc. destruct ps; by apply list_elem_of_singleton.
    + left. unfold main_steps. rewrite Hpc. by apply list_elem_of_singleton.
    + left. unfold main_steps. rewrite Hpc. by apply list_elem_of_singleton.
    + left. unfold main_steps. rewrite Hpc. apply elem_of_app. left.
      rewrite (proj2 (idle_true m)) by done. rewrite Hd. simpl.
      by apply list_elem_of_singleton.
    + left. unfold main_steps. rewrite Hpc. apply elem_of_app. right.
      apply list_elem_of_fmap. exists ((t, Ok u), before ++ after).
      split; [done|]. apply picks_spec. by exists before, after.
    + left. unfold main_steps. rewrite Hpc. apply elem_of_app. right.
      apply list_elem_of_fmap. exists ((t, Raise e), before ++ after).
      split; [done|]. apply picks_spec. by exists before, after.
    + left. unfold main_steps. rewrite Hpc.
      rewrite (proj2 (idle_true m)) by done. by apply list_elem_of_singleton.
    + right. unfold worker_steps. rewrite Halive, Hq. apply elem_of_app. left.
      destruct (Nat.ltb_spec (length (running m)) (workers self)); [|lia].
      by apply list_elem_of_singleton.
    + right. unfold worker_steps. rewrite Halive. apply elem_of_app. right.
      apply list_elem_of_fmap. exists (t, before ++ after). split.
      * by destruct (process_rewriting t.1 t.2 (state m)).
      * apply picks_spec. by exists before, after.
Qed.

Lemma run_rtc (fuel : nat) (m : machine) :
  rtc steps_to m (run document_pages contained_blocks self process_rewriting fuel m).
Proof.
  revert m. induction fuel as [|fuel IH]; intros m; simpl; [done|].
  destruct (successors m) as [|m' ms] eqn:Hnext; [done|].
  eapply rtc_l; [|apply IH]. unfold step. rewrite Hnext. by left.
Qed.


(** *** Termination *)

Lemma transition_decreases (m m' : machine) :
  transition m m' →
  (rank (main m') < rank (main m)
   ∨ rank (main m') = rank (main m)
     ∧ (pages_to_go (main m') < pages_to_go (main m)
        ∨ pages_to_go (main m') = pages_to_go (main m) ∧ weight m' < weight m))%nat.
Proof.
  unfold weight.
  destruct 1 as
      [Hpc Hzero|Hpc Hsome Hk|Hpc Hsome Hk|ps t ts Hpc|page ps Hpc|Hpc
      |Hpc Hq Hr Hd|t u before after Hpc Hd|t e before after Hpc Hd|r Hpc Hq Hr
      |t rest Halive Hq Hfree|t before after Halive Hrun];
    simpl; rewrite ?Hpc; simpl; try lia.
  - right. split; [done|]. right. split; [done|]. rewrite length_app. simpl. lia.
  - right. split; [done|]. right. split; [done|].
    rewrite Hd, !length_app. simpl. lia.
  - right. split; [done|]. right. split; [done|].
    rewrite Hq, length_app. simpl. lia.
  - right. split; [done|]. right. split; [done|].
    rewrite Hrun, !length_app. simpl. lia.
Qed.

(** No schedule runs forever. *)
Lemma machine_sn (m : machine) : sn steps_to m.
Proof.
  assert (Hall : ∀ r p w (m : machine),
             rank (main m) = r → pages_to_go (main m) = p → weight m = w →
             sn steps_to m); [|by eapply Hall].
  clear m.
  induction r as [r IHr] using lt_wf_ind.
  induction p as [p IHp] using lt_wf_ind.
  induction w as [w IHw] using lt_wf_ind.
  intros m Hr Hp Hw. constructor. intros m' Hstep. unfold flip in Hstep.
  apply step_transition, transition_decreases in Hstep.
  destruct Hstep as [Hlt|[Heq [Hlt|[Heq' Hlt]]]].
  - eapply IHr; [|reflexivity..]. lia.
  - eapply IHp; [|congruence|reflexivity..]. lia.
  - eapply IHw; [|congruence..|reflexivity]. lia.
Qed.

(** *** Invariants *)

Lemma submitted_app (tr tr' : list (@event Pg Bk)) :
  submitted (tr ++ tr') = submitted tr ++ submitted tr'.
Proof. apply omap_app. Qed.
Lemma started_app (tr tr' : list (@event Pg Bk)) :
  started (tr ++ tr') = started tr ++ started tr'.
Proof. apply omap_app. Qed.
Lemma completed_app (tr tr' : list (@event Pg Bk)) :
  completed (tr ++ tr') = completed tr ++ completed tr'.
Proof. apply omap_app. Qed.
Lemma yielded_app (tr tr' : list (@event Pg Bk)) :
  yielded (tr ++ tr') = yielded tr ++ yielded tr'.
Proof. apply omap_app. Qed.

Local Ltac trace_simpl :=
  rewrite ?submitted_app, ?started_app, ?completed_app, ?yielded_app;
  cbn [submitted started completed yielded omap list_omap option_bind];
  rewrite ?app_nil_r.

Lemma invariant_step (m m' : machine) :
  pool_invariant self m → transition m m' → pool_invariant self m'.
Proof.
  intros [Hfifo Hrun Hdone Hphase] Htrans. unfold phase_ok in Hphase.
  destruct Htrans as
      [Hpc Hzero|Hpc Hsome Hk|Hpc Hsome Hk|ps t ts Hpc|page ps Hpc|Hpc
      |Hpc Hq Hr Hd|t u before after Hpc Hd|t e before after Hpc Hd|r Hpc Hq Hr
      |t rest Halive Hq Hfree|t before after Halive Hrunning];
    rewrite ?Hpc in Hphase.
  - destruct Hphase as (Htr & ? & ? & ?).
    constructor; unfold phase_ok; simpl; try done. rewrite Htr. by split_and!.
  - destruct Hphase as (Htr & ? & ? & ?).
    constructor; unfold phase_ok; simpl; trace_simpl; try done.
    split_and!; try done. left. by rewrite Htr.
  - destruct Hphase as (Htr & ? & ? & ?).
    constructor; unfold phase_ok; simpl; trace_simpl; try done.
    rewrite Htr. split; [unfold workers; lia | done].
  - constructor; unfold phase_ok; simpl; trace_simpl; try done.
    by rewrite Hfifo, app_assoc.
  - by constructor.
  - destruct Hphase as [? Hy].
    constructor; unfold phase_ok; simpl; try done. rewrite Hy. by split.
  - destruct Hphase as [? ?].
    constructor; unfold phase_ok; simpl; try done.
  - destruct Hphase as [? Hy].
    constructor; unfold phase_ok; simpl; trace_simpl; try done.
    + rewrite Hdone, Hd. by solve_Permutation.
    + split; [done|]. apply Forall_app. split; [done|]. by repeat constructor.
  - destruct Hphase as [? Hy].
    constructor; unfold phase_ok; simpl; trace_simpl; try done.
    + rewrite Hdone, Hd. by solve_Permutation.
    + split; [done|]. by exists (yielded (trace m)), t.
  - destruct r as [u|e]; constructor; unfold phase_ok; simpl; trace_simpl;
      try done.
    + destruct Hphase as (? & ? & ? & ? & ?). by split_and!.
    + destruct Hphase as (? & oks & t & ? & ?). split_and!; try done.
      right. by exists oks, t.
  - constructor; unfold phase_ok; simpl; trace_simpl; try done.
    + by rewrite Hfifo, Hq, <- app_assoc.
    + rewrite Hrun. by solve_Permutation.
    + destruct (main m) as [| | |[]|[]]; try done.
      * destruct Hphase as (? & ? & Hq' & _). by rewrite Hq' in Hq.
  - constructor; unfold phase_ok; simpl; trace_simpl; try done.
    + rewrite Hrun, Hrunning, fmap_app. simpl. by solve_Permutation.
    + rewrite Hdone. by solve_Permutation.
    + destruct (main m) as [| | |[]|[]]; try done.
      * destruct Hphase as (? & ? & _ & Hr' & _).
        rewrite Hr' in Hrunning. by destruct before.
Qed.

Lemma invariant_start (s : St) : pool_invariant self (start s : machine).
Proof. by constructor. Qed.

(** Every machine of a call satisfies the invariant. *)
Lemma invariant_reachable (s : St) (m : machine) :
  rtc steps_to (start s) m → pool_invariant self m.
Proof.
  intros Hrun. revert m Hrun. apply rtc_ind_r.
  - apply invariant_start.
  - intros m1 m2 _ Hstep%step_transition IH. by eapply invariant_step.
Qed.

(** *** Progress *)

(** A machine of a call that has not finished can take a step: the calling
    thread is never blocked for ever, because a pool that exists has a
    worker. *)
Lemma progress (m : machine) :
  pool_invariant self m → (∀ r, main m ≠ Finished r) → ∃ m', steps_to m m'.
Proof.
  intros [_ _ _ Hphase] Hgo. unfold phase_ok in Hphase.
  assert (Hworker : pool_alive (main m) = true → (0 < workers self)%nat →
                    (queue m ≠ [] ∨ running m ≠ []) → ∃ m', transition m m').
  { intros Halive Hk Hbusy. destruct (running m) as [|t after] eqn:Hr.
    - destruct (queue m) as [|t rest] eqn:Hq; [by destruct Hbusy|].
      eexists. eapply worker_start; [done..|]. by rewrite Hr.
    - eexists. by eapply (worker_finish _ _ _ _ _ t []). }
  assert (Hidle : (queue m = [] ∧ running m = []) ∨ (queue m ≠ [] ∨ running m ≠ [])).
  { destruct (queue m), (running m); (by left) || (right; by (left + right)). }
  cut (∃ m', transition m m').
  { intros [m' Hm']. exists m'. by apply step_transition. }
  destruct (main m) as [|ps ts| |r|r] eqn:Hpc.
  - destruct (decide (matching_count (state m) = 0%nat)).
    { eexists. by apply count_none. }
    destruct (decide (max_concurrency (config self) ≤ 0)%Z).
    { eexists. by apply count_no_pool. }
    eexists. apply count_some; [done..|lia].
  - destruct ts as [|t ts]; [destruct ps as [|page ps]|].
    + eexists. by apply all_submitted.
    + eexists. by eapply next_page.
    + eexists. by eapply submit_task.
  - destruct Hphase as [Hk _].
    destruct (done m) as [|[t [u|e]] after] eqn:Hd.
    + destruct Hidle as [[??]|Hbusy].
      * eexists. by apply all_yielded.
      * by apply Hworker.
    + eexists. by eapply (yield_ok _ _ _ _ _ t u []).
    + eexists. by eapply (yield_raise _ _ _ _ _ t e []).
  - destruct Hidle as [[??]|Hbusy].
    + eexists. by eapply shutdown.
    + apply Hworker; [done| |done]. destruct r; by destruct Hphase.
  - by destruct (Hgo r).
Qed.

(** From every machine of a call some schedule finishes; as no schedule
    runs for ever and none gets stuck, every schedule does. *)
Lemma complete_run (m : machine) :
  pool_invariant self m → ∃ m' r, rtc steps_to m m' ∧ main m' = Finished r.
Proof.
  induction (machine_sn m) as [m _ IH]. intros Hinv.
  destruct (main m) as [|ps ts| |r|r] eqn:Hpc; [| | | |by exists m, r].
  all: destruct (progress m Hinv) as [m' Hstep]; [by rewrite Hpc|].
  all: destruct (IH m' Hstep) as (m'' & r' & Hrun & Hfin);
    [eapply invariant_step; [done|by apply step_transition]|].
  all: exists m'', r'; split; [by eapply rtc_l | done].
Qed.

(** [rewrite_blocks] has an outcome. *)
Lemma rewrite_blocks_total (s : St) :
  ∃ out, rewrite_blocks document_pages contained_blocks self process_rewriting s out.
Proof.
  destruct (complete_run (start s) (invariant_start s)) as (m & r & Hrun & Hfin).
  exists (state m, trace m, r), m, r. by split_and!.
Qed.

(** *** What was enumerated *)

Lemma all_tasks_length (s : St) : length (matching_pairs s) = matching_count s.
Proof.
  unfold all_tasks, total_blocks.
  induction (document_pages s) as [|page ps IH]; simpl; [done|].
  by rewrite length_app, length_fmap, IH.
Qed.

Lemma enumeration_step (s0 : St) (m m' : machine) :
  hook_keeps_blocks document_pages contained_blocks process_rewriting →
  enumeration_ok document_pages contained_blocks self s0 m → transition m m' →
  enumeration_ok document_pages contained_blocks self s0 m'.
Proof.
  intros Hhook (Hpages & Hblocks & Hsub) Htrans.
  destruct Htrans as
      [Hpc Hzero|Hpc Hsome Hk|Hpc Hsome Hk|ps t ts Hpc|page ps Hpc|Hpc
      |Hpc Hq Hr Hd|t u before after Hpc Hd|t e before after Hpc Hd|r Hpc Hq Hr
      |t rest Halive Hq Hfree|t before after Halive Hrunning];
    rewrite ?Hpc in Hsub;
    (split; [|split]); simpl; trace_simpl; try done.
  - left. rewrite Hsub.
    assert (Hnone : length (matching_pairs s0) = 0%nat).
    { rewrite all_tasks_length, <- Hzero. unfold total_blocks.
      rewrite Hpages. f_equal. apply list_fmap_ext. intros _ page _.
      by rewrite Hblocks. }
    by destruct (matching_pairs s0).
  - by right.
  - by rewrite Hsub, Hpages.
  - by rewrite <- Hsub, <- app_assoc.
  - by rewrite Hblocks.
  - simpl in Hsub. by rewrite app_nil_r in Hsub.
  - left. destruct r; trace_simpl; done.
  - rewrite <- Hpages. apply Hhook.
  - intros page. rewrite <- Hblocks. apply Hhook.
Qed.

Lemma enumeration_reachable (s : St) (m : machine) :
  hook_keeps_blocks document_pages contained_blocks process_rewriting →
  rtc steps_to (start s) m → enumeration_ok document_pages contained_blocks self s m.
Proof.
  intros Hhook Hrun. revert m Hrun. apply rtc_ind_r.
  - by split_and!.
  - intros m1 m2 _ Hstep%step_transition IH. by eapply enumeration_step.
Qed.

(** *** What the hooks did *)

Lemma run_hooks_snoc (s : St) ts t :
  run_hooks process_rewriting s (ts ++ [t])
  = (process_rewriting t.1 t.2 (run_hooks process_rewriting s ts)).1.
Proof. unfold run_hooks. by rewrite foldl_snoc. Qed.

Lemma run_results_snoc (s : St) ts t :
  run_results process_rewriting s (ts ++ [t])
  = run_results process_rewriting s ts
    ++ [(t, (process_rewriting t.1 t.2 (run_hooks process_rewriting s ts)).2)].
Proof.
  revert s. induction ts as [|t' ts IH]; intros s; [done|].
  cbn [app run_results]. by rewrite IH.
Qed.

(** The state of a call is that of the hooks completed so far, run one
    after the other in completion order, and each future holds what its
    hook gave in that run. *)
Lemma state_sequential (s : St) (m : machine) :
  rtc steps_to (start s) m →
  state m = run_hooks process_rewriting s (completed (trace m)).*1
  ∧ completed (trace m) = run_results process_rewriting s (completed (trace m)).*1.
Proof.
  intros Hrun. revert m Hrun. apply rtc_ind_r; [done|].
  intros m m' _ Htrans%step_transition [IHs IHr].
  destruct Htrans as
      [Hpc Hzero|Hpc Hsome Hk|Hpc Hsome Hk|ps t ts Hpc|page ps Hpc|Hpc
      |Hpc Hq Hr Hd|t u before after Hpc Hd|t e before after Hpc Hd|r Hpc Hq Hr
      |t rest Halive Hq Hfree|t before after Halive Hrunning];
    simpl; trace_simpl; try done.
  { by destruct r; trace_simpl. }
  rewrite fmap_app, fmap_cons, fmap_nil. cbn [fst].
  rewrite run_hooks_snoc, run_results_snoc. by rewrite <- IHs, <- IHr.
Qed.

Lemma results_elem (s : St) ts t r :
  (t, r) ∈ run_results process_rewriting s ts →
  ∃ s0, (process_rewriting t.1 t.2 s0).2 = r.
Proof.
  revert s. induction ts as [|t' ts IH]; intros s; simpl.
  - by intros ?%elem_of_nil.
  - intros [[= -> ->]|Hin]%elem_of_cons; [by exists s | by eapply IH].
Qed.

(** What [rewrite_blocks] raises is the [ValueError] of the executor's
    constructor or what the hook of a task raised. *)
Lemma raise_from_hook (s : St) (m : machine) e :
  rtc steps_to (start s) m → main m = Finished (Raise e) →
  e = ValueError ∨ ∃ t s0, (process_rewriting t.1 t.2 s0).2 = Raise e.
Proof.
  intros Hrun Hfin.
  destruct (invariant_reachable s m Hrun) as [_ _ Hdone Hphase].
  unfold phase_ok in Hphase. rewrite Hfin in Hphase.
  destruct Hphase as (_ & _ & [[-> _]|(oks & t & Hy & _)]); [by left|]. right.
  assert ((t, Raise e) ∈ completed (trace m)) as Hin.
  { rewrite Hdone, Hy. apply elem_of_app. left. apply elem_of_app. right.
    apply list_elem_of_here. }
  destruct (state_sequential s m Hrun) as [_ Hres]. rewrite Hres in Hin.
  exists t. by eapply results_elem.
Qed.

(** *** The claims about [rewrite_blocks] *)

(** When control leaves [rewrite_blocks] the pool is drained: every
    submitted task was started, in submission order, and completed. *)
Lemma finished_drained (s : St) (m : machine) r :
  rtc steps_to (start s) m → main m = Finished r →
  queue m = [] ∧ running m = []
  ∧ started (trace m) = submitted (trace m)
  ∧ (completed (trace m)).*1 ≡ₚ submitted (trace m).
Proof.
  intros Hrun Hfin.
  destruct (invariant_reachable s m Hrun) as [Hfifo Hrunning _ Hphase].
  unfold phase_ok in Hphase. rewrite Hfin in Hphase.
  assert (Hidle : queue m = [] ∧ running m = []).
  { destruct r; [destruct Hphase as (_ & ? & ? & _) | destruct Hphase as (? & ? & _)];
      by split. }
  destruct Hidle as [Hq Hr]. rewrite Hq, Hr, !app_nil_r in *.
  split_and!; try done. by rewrite <- Hrunning, Hfifo.
Qed.

(** A failure among the completed tasks makes the call raise the first
    failure [as_completed] yielded. *)
Lemma finished_first_failure (s : St) (m : machine) r t e :
  rtc steps_to (start s) m → main m = Finished r →
  (t, Raise e) ∈ completed (trace m) →
  ∃ t' e' oks, r = Raise e' ∧ (t', Raise e') ∈ completed (trace m)
    ∧ yielded (trace m) = oks ++ [(t', Raise e')] ∧ Forall succeeded oks.
Proof.
  intros Hrun Hfin Hin.
  destruct (invariant_reachable s m Hrun) as [_ _ Hdone Hphase].
  unfold phase_ok in Hphase. rewrite Hfin in Hphase. destruct r as [u|e0].
  - destruct Hphase as (Hok & _ & _ & Hd). rewrite Hd, app_nil_r in Hdone.
    rewrite Hdone in Hin. by apply (proj1 (Forall_forall _ _) Hok) in Hin.
  - destruct Hphase as (_ & _ & [[_ Htr]|(oks & t' & Hy & Hoks)]).
    { rewrite Htr in Hin. by apply elem_of_nil in Hin. }
    exists t', e0, oks. split_and!; try done.
    rewrite Hdone, Hy. apply elem_of_app. left. apply elem_of_app. right.
    by apply list_elem_of_singleton.
Qed.

(** C2. When a submitted task raises, the first failure [as_completed]
    yields makes [rewrite_blocks] raise that exception, and no task is
    cancelled: at every moment a submitted task is queued, running or
    completed, and a completed task is one whose hook was run: the state is
    that of the hooks of the completed tasks, run one after the other in
    completion order, and each future holds what its hook gave. When control
    leaves [rewrite_blocks], by return or by raise, the queue is empty,
    nothing is running, and every submitted task was started and ran to
    completion, its effect in the state. Every schedule reaches that point:
    none runs for ever and none gets stuck. *)
Theorem first_failure_raises_pool_drains (s : St) :
  (∀ (m : machine) r, rtc steps_to (start s) m → main m = Finished r →
     queue m = [] ∧ running m = []
     ∧ started (trace m) = submitted (trace m)
     ∧ (completed (trace m)).*1 ≡ₚ submitted (trace m)
     ∧ state m = run_hooks process_rewriting s (completed (trace m)).*1
     ∧ completed (trace m) = run_results process_rewriting s (completed (trace m)).*1
     ∧ (∀ t e, (t, Raise e) ∈ completed (trace m) →
          ∃ t' e' oks, r = Raise e' ∧ (t', Raise e') ∈ completed (trace m)
            ∧ yielded (trace m) = oks ++ [(t', Raise e')]
            ∧ Forall succeeded oks))
  ∧ (∀ m : machine, rtc steps_to (start s) m →
       submitted (trace m) = started (trace m) ++ queue m
       ∧ started (trace m) ≡ₚ (completed (trace m)).*1 ++ running m
       ∧ state m = run_hooks process_rewriting s (completed (trace m)).*1
       ∧ completed (trace m) = run_results process_rewriting s (completed (trace m)).*1
       ∧ sn steps_to m
       ∧ ((∀ r, main m ≠ Finished r) → ∃ m', steps_to m m'))
  ∧ (∃ (m : machine) r, rtc steps_to (start s) m ∧ main m = Finished r).
Proof.
  split_and!.
  - intros m r Hrun Hfin.
    destruct (finished_drained s m r Hrun Hfin) as (? & ? & ? & ?).
    destruct (state_sequential s m Hrun) as [? ?].
    split_and!; try done. intros t e. by apply (finished_first_failure s).
  - intros m Hrun. pose proof (invariant_reachable s m Hrun) as Hinv.
    destruct (state_sequential s m Hrun) as [? ?].
    split_and!; [apply Hinv | apply Hinv | done | done | apply machine_sn
                | by apply progress].
  - apply complete_run, invariant_start.
Qed.


Lemma total_blocks_none (s : St) :
  (∀ page, page ∈ document_pages s → contained_blocks s page = []) →
  matching_count s = 0%nat.
Proof.
  unfold total_blocks. intros Hnone.
  induction (document_pages s) as [|page ps IH]; simpl; [done|].
  rewrite (Hnone page) by apply list_elem_of_here. simpl.
  apply IH. intros page' Hin. apply Hnone. by apply list_elem_of_further.
Qed.

(** C8. Zero-work short-circuit: when no block of any page matches the
    filter, the count is zero and [rewrite_blocks] returns at once: its only
    step ends the call, and its only outcome is a normal return with the
    state unchanged and nothing observed, so no progress bar and no
    executor were created. *)
Theorem no_matching_block_returns_at_once (s : St) :
  (∀ page, page ∈ document_pages s → contained_blocks s page = []) →
  matching_count s = 0%nat
  ∧ successors (start s) = [{| main := Finished (Ok tt); state := s; queue := [];
                         running := []; done := []; trace := [] |}]
  ∧ ∀ out, rewrite_blocks document_pages contained_blocks self process_rewriting s out
           ↔ out = (s, [], Ok tt).
Proof.
  intros Hnone. pose proof (total_blocks_none s Hnone) as Hzero.
  assert (Hnext : successors (start s)
                  = [{| main := Finished (Ok tt); state := s; queue := [];
                        running := []; done := []; trace := [] |}]).
  { unfold next, main_steps, worker_steps. simpl. by rewrite Hzero. }
  split_and!; [done..|]. intros out. split.
  - intros (m & r & Hrun & Hfin & ->).
    apply rtc_inv in Hrun as [<-|(m1 & Hstep & Hrun)]; [done|].
    unfold step in Hstep. rewrite Hnext in Hstep.
    apply list_elem_of_singleton in Hstep as ->.
    apply rtc_inv in Hrun as [<-|(m2 & Hstep & _)].
    + simpl in *. by injection Hfin as <-.
    + by apply elem_of_nil in Hstep.
  - intros ->.
    exists {| main := Finished (Ok tt); state := s; queue := []; running := [];
              done := []; trace := [] |}, (Ok tt).
    split_and!; [|done..].
    apply rtc_once. unfold step. rewrite Hnext. by apply list_elem_of_singleton.
Qed.

(** *** The entry point *)

Lemma Complex_call_returns (s : St) (out : outcome) :
  Complex_call document_pages contained_blocks self process_rewriting s out →
  out.2 = Ok tt
  ∨ ∃ s' tr e,
      rewrite_blocks document_pages contained_blocks self process_rewriting s
        (s', tr, Raise e)
      ∧ is_Exception e = false ∧ out = (s', tr, Raise e).
Proof.
  unfold Complex_call.
  destruct (negb (use_llm (config self))
            || match llm_service self with None => true | Some _ => false end).
  - intros ->. by left.
  - intros (s' & tr & [u|e] & Hout & ->); [by left|].
    destruct (is_Exception e) eqn:He; [by left|]. right. by exists s', tr, e.
Qed.

Lemma Complex_call_total (s : St) :
  ∃ out, Complex_call document_pages contained_blocks self process_rewriting s out.
Proof.
  unfold Complex_call.
  destruct (negb (use_llm (config self))
            || match llm_service self with None => true | Some _ => false end).
  - by eexists.
  - destruct (rewrite_blocks_total s) as [[[s' tr] r] Hout].
    eexists. exists s', tr, r. by split.
Qed.

Lemma Complex_call_warns (s s' : St) tr e :
  use_llm (config self) = true → llm_service self ≠ None →
  rewrite_blocks document_pages contained_blocks self process_rewriting s (s', tr, Raise e) →
  Complex_call document_pages contained_blocks self process_rewriting s
    (if is_Exception e then (s', tr ++ [Warning e], Ok tt) else (s', tr, Raise e)).
Proof.
  intros Huse Hservice Hout. unfold Complex_call. rewrite Huse.
  destruct (llm_service self); [|done]. simpl.
  exists s', tr, (Raise e). by split.
Qed.

(** With hooks that raise instances of [Exception] only, so does
    [rewrite_blocks], and [__call__] returns. *)
Lemma Complex_call_quiet (s : St) (out : outcome) :
  (∀ page block s0 e, (process_rewriting page block s0).2 = Raise e →
                      is_Exception e = true) →
  Complex_call document_pages contained_blocks self process_rewriting s out →
  out.2 = Ok tt.
Proof.
  intros Hhooks Hcall.
  destruct (Complex_call_returns s out Hcall)
    as [Hok|(s' & tr & e & (m & r & Hrun & Hfin & [= -> -> <-]) & He & _)]; [done|].
  destruct (raise_from_hook s m e Hrun Hfin) as [->|(t & s0 & Hraise)]; [done|].
  apply Hhooks in Hraise. congruence.
Qed.

Lemma Complex_call_disabled (s : St) (out : outcome) :
  use_llm (config self) = false ∨ llm_service self = None →
  Complex_call document_pages contained_blocks self process_rewriting s out
  ↔ out = (s, [], Ok tt).
Proof.
  unfold Complex_call. intros [->| ->]; [done|]. by rewrite orb_true_r.
Qed.

End OrchestratorProperties.

(** ** Hooks that rewrite the markup of their block *)

Section MarkupHooks.
Context `{Schema}.

Lemma matching_ids_alter_first (filter : option (list BlockTypes)) p v (l : list Block) :
  Block_id <$> base.filter (fun b => matches filter b = true) (alter_first p (set_html v) l)
  = Block_id <$> base.filter (fun b => matches filter b = true) l.
Proof.
  induction l as [|b l IH]; simpl; [done|].
  destruct (p b); rewrite !filter_cons.
  - change (matches filter (set_html v b)) with (matches filter b).
    by destruct (decide (matches filter b = true)).
  - destruct (decide (matches filter b = true)); by rewrite ?fmap_cons, IH.
Qed.

Lemma matching_ids_alter_first_block (filter : option (list BlockTypes)) p v pgs :
  (fun pg => Block_id <$> base.filter (fun b => matches filter b = true)
                            (PageGroup_children pg))
    <$> alter_first_block p (set_html v) pgs
  = (fun pg => Block_id <$> base.filter (fun b => matches filter b = true)
                              (PageGroup_children pg)) <$> pgs.
Proof.
  induction pgs as [|pg pgs IH]; simpl; [done|].
  destruct (existsb p (PageGroup_children pg)); rewrite !fmap_cons.
  - simpl. by rewrite matching_ids_alter_first.
  - by rewrite IH.
Qed.

Lemma World_contained_blocks_lookup (filter : option (list BlockTypes)) (w : World) page :
  World_contained_blocks filter w page
  = default [] (((fun pg => Block_id <$> base.filter (fun b => matches filter b = true)
                                           (PageGroup_children pg))
                   <$> pages (document w)) !! page).
Proof.
  unfold World_contained_blocks. rewrite list_lookup_fmap.
  by destruct (pages (document w) !! page).
Qed.

(** Overwriting the markup of a block leaves the pages and the matching
    blocks of every page in place. *)
Lemma set_block_html_keeps_blocks (filter : option (list BlockTypes)) a v (w : World) :
  World_pages (set_block_html a v w).1 = World_pages w
  ∧ ∀ page, World_contained_blocks filter (set_block_html a v w).1 page
            = World_contained_blocks filter w page.
Proof.
  unfold set_block_html, modify. simpl. split.
  - unfold World_pages. simpl. f_equal.
    pose proof (f_equal length (matching_ids_alter_first_block filter (has_id a) v
                                  (pages (document w)))) as Hlen.
    by rewrite !length_fmap in Hlen.
  - intros page. rewrite !World_contained_blocks_lookup. simpl.
    by rewrite matching_ids_alter_first_block.
Qed.

(** The per-block orchestrator enumerates the pairs the whole-document one
    submits. *)
Lemma inference_blocks_all_tasks (filter : option (list BlockTypes)) (w : World) :
  inference_blocks filter w = all_tasks World_pages (World_contained_blocks filter) w.
Proof. reflexivity. Qed.

End MarkupHooks.

(** C6. The top-level entry points catch the instances of [Exception] and
    nothing else. Every call of [BaseLLMComplexBlockProcessor.__call__] has
    an outcome; an outcome is a normal return, or the propagation of an
    exception of [rewrite_blocks] that is not an instance of [Exception]; an
    exception of [rewrite_blocks] that is one becomes a logged warning; and
    with hooks that raise instances of [Exception] only, every outcome is a
    normal return. [BaseLLMSimpleBlockProcessor.__call__] returns normally
    and logs the exception when [rewrite_block] returns or raises an
    instance of [Exception], and propagates any other exception. *)
Theorem entry_points_catch_exceptions {St Pg Bk Service : Type}
    (document_pages : St → list Pg) (contained_blocks : St → Pg → list Bk)
    (self : @BaseLLMProcessor Service) (process_rewriting : Pg → Bk → M St unit) :
  (∀ s : St,
     (∃ out, Complex_call document_pages contained_blocks self process_rewriting s out)
     ∧ (∀ out, Complex_call document_pages contained_blocks self process_rewriting s out →
          out.2 = Ok tt
          ∨ ∃ s' tr e,
              rewrite_blocks document_pages contained_blocks self process_rewriting s
                (s', tr, Raise e)
              ∧ is_Exception e = false ∧ out = (s', tr, Raise e))
     ∧ (∀ s' tr e,
          use_llm (config self) = true → llm_service self ≠ None →
          rewrite_blocks document_pages contained_blocks self process_rewriting s
            (s', tr, Raise e) →
          Complex_call document_pages contained_blocks self process_rewriting s
            (if is_Exception e then (s', tr ++ [Warning e], Ok tt)
             else (s', tr, Raise e)))
     ∧ ((∀ page block s0 e, (process_rewriting page block s0).2 = Raise e →
                            is_Exception e = true) →
        ∀ out, Complex_call document_pages contained_blocks self process_rewriting s out →
               out.2 = Ok tt))
  ∧ (∀ (Resp Prompt : Type) (rewrite_block : Resp → Prompt → M St unit)
       (response : Resp) (prompt_data : Prompt) (s : St),
       ((∀ e, (rewrite_block response prompt_data s).2 = Raise e →
              is_Exception e = true) →
        (Simple_call (Pg:=Pg) (Bk:=Bk) rewrite_block response prompt_data s).2 = Ok tt)
       ∧ ∀ s' e, rewrite_block response prompt_data s = (s', Raise e) →
           Simple_call (Pg:=Pg) (Bk:=Bk) rewrite_block response prompt_data s
           = if is_Exception e then (s', [Warning e; Traceback_printed e], Ok tt)
             else (s', [], Raise e)).
Proof.
  split.
  - intros s. split_and!.
    + apply Complex_call_total.
    + apply Complex_call_returns.
    + intros s' tr e. apply Complex_call_warns.
    + intros Hhooks out. by apply Complex_call_quiet.
  - intros Resp Prompt rewrite_block response prompt_data s. unfold Simple_call.
    destruct (rewrite_block response prompt_data s) as [s1 [[]|e1]]; split; try done.
    + intros Hquiet. by rewrite (Hquiet e1 eq_refl).
    + by intros s' e [= -> ->].
Qed.

(** C9. Configuration no-op: when [use_llm] is false or no service is bound,
    [BaseLLMComplexBlockProcessor.__call__] has one outcome: it returns, the
    state is unchanged and nothing is observed, whatever [rewrite_blocks]
    would do. [__init__] binds no service when [use_llm] is false. *)
Theorem disabled_processor_is_noop {St Pg Bk Service : Type}
    (document_pages : St → list Pg) (contained_blocks : St → Pg → list Bk)
    (process_rewriting : Pg → Bk → M St unit) :
  (∀ (self : @BaseLLMProcessor Service) (s : St) (out : outcome),
     use_llm (config self) = false ∨ llm_service self = None →
     Complex_call document_pages contained_blocks self process_rewriting s out
     ↔ out = (s, [], Ok tt))
  ∧ (∀ (service : option Service) (cfg : Config),
       use_llm cfg = false → llm_service (BaseLLMProcessor_init service cfg) = None)
  ∧ (∀ (service : option Service) (cfg : Config) (s : St) (out : outcome),
       use_llm cfg = false ∨ service = None →
       Complex_call document_pages contained_blocks
         (BaseLLMProcessor_init service cfg) process_rewriting s out
       ↔ out = (s, [], Ok tt)).
Proof.
  split_and!.
  - intros self s out. apply Complex_call_disabled.
  - intros service cfg Huse. unfold BaseLLMProcessor_init. simpl. by rewrite Huse.
  - intros service cfg s out Hoff. apply Complex_call_disabled.
    unfold BaseLLMProcessor_init. simpl.
    destruct Hoff as [Huse| ->]; [by left|]. right. by destruct (use_llm cfg).
Qed.

(** * The properties on the sample document *)

Section Samples.
Import Sample.
Local Open Scope string_scope.

Local Ltac free_of_slash := apply (bool_decide_unpack _); by vm_compute.

Lemma batch_has_ids : Forall has_id_key batch.
Proof. repeat constructor; eexists _, _; (split; [reflexivity|]); reflexivity. Qed.

(** C1, as stated, fails: of two raw records, the first is not JSON and the
    second is valid; [load_blocks] raises on the first, so the call raises
    and the block the second names keeps its markup. *)
Lemma apply_rewrites_bad_json_aborts :
  apply_rewrites json_loads
    (response [py "{"; record_text "/doc/p1/Text/b1" "<p>new</p>"]) world
  = (world, Raise JSONDecodeError)
  ∧ html_at (document world) (address "p1" "b1" Text) = Some (JStr (py "<p>one</p>")).
Proof. split; by vm_compute. Qed.

Lemma raw_batch_decodes :
  Forall2 (fun raw v => json_loads raw = Ok v) raw_batch batch.
Proof. repeat constructor. Qed.

(** C1 (amended), on a batch of three raw records, the second with a bad id:
    the call returns and the two valid blocks are updated; the third block
    of the page is untouched. *)
Lemma apply_rewrites_isolates_decoded_records_witness :
  (apply_rewrites json_loads (response raw_batch) world).2 = Ok tt
  ∧ html_at (document (apply_rewrites json_loads (response raw_batch) world).1)
            (address "p1" "b1" Text)
    = Some (JStr (py "<p>new</p>"))
  ∧ html_at (document (apply_rewrites json_loads (response raw_batch) world).1)
            (address "p1" "b2" Table)
    = Some (JStr (py "<table>new</table>"))
  ∧ html_at (document (apply_rewrites json_loads (response raw_batch) world).1)
            (address "p1" "b3" Text)
    = Some (JStr (py "<p>three</p>")).
Proof.
  destruct (proj1 (proj2 (apply_rewrites_isolates_decoded_records json_loads
                            (response raw_batch) raw_batch world eq_refl))
              batch raw_batch_decodes batch_has_ids)
    as (Hok & Hhtml & _).
  split; [exact Hok|]. rewrite !Hhtml. by vm_compute.
Defined.

(** C10, on the same batch, and on the batch whose second record has no
    ["id"]: the call raises [KeyError] and the third record is lost. *)
Lemma handle_rewrites_raises_only_without_id_witness :
  (∃ lg, handle_rewrites batch world
         = ({| document := foldl apply_record (document world) batch; log := lg |},
            Ok tt))
  ∧ handle_rewrites
      ([record "/doc/p1/Text/b1" "<p>new</p>"]
         ++ JObject (<[py "html" := JStr (py "<p>lost</p>")]> ∅)
         :: [record "/doc/p1/Table/b2" "<table>new</table>"]) world
    = ((handle_rewrites [record "/doc/p1/Text/b1" "<p>new</p>"] world).1,
       Raise KeyError).
Proof.
  split.
  - exact (proj1 handle_rewrites_raises_only_without_id batch world batch_has_ids).
  - apply (proj2 handle_rewrites_raises_only_without_id); [|reflexivity].
    repeat constructor. eexists _, _. split; reflexivity.
Defined.

(** C3, as stated, fails: a trailing separator is not trimmed. The address
    decodes; with a separator appended it does not. *)
Lemma decode_keeps_trailing_separator :
  decode (JStr (py "/doc/p1/Text/b1")) = Ok (address "p1" "b1" Text)
  ∧ segments (py "/doc/p1/Text/b1/") = [py "doc"; py "p1"; py "Text"; py "b1"; []]
  ∧ decode (JStr (py "/doc/p1/Text/b1/")) = Raise ValueError.
Proof. split_and!; by vm_compute. Qed.

(** C3 (amended), on the id ["/doc/p1/UnknownType/b1"]. *)
Lemma decode_malformed_raises_witness :
  (∃ e, decode (JStr (py "/doc/p1/UnknownType/b1")) = Raise e)
  ∧ ∀ fields w, fields !! py "id" = Some (JStr (py "/doc/p1/UnknownType/b1")) →
      ∃ e, handle_rewrites [JObject fields] w
           = ({| document := document w;
                 log := log w ++ [Debug_error_parsing
                                    (JStr (py "/doc/p1/UnknownType/b1")) e] |}, Ok tt).
Proof.
  apply (proj2 (@decode_malformed_raises schema (py "/doc/p1/UnknownType/b1")
                  eq_refl eq_refl)).
  right. right. exists (py "UnknownType"). by split.
Defined.

(** C4, as stated, fails: on a 2000 x 2000 page the box
    [(1001, 1003, 1005, 1007)] scales to [(500.5, 501.5, 502.5, 503.5)],
    every product and quotient exact, but dividing first gives a first
    coordinate below 500.5. *)
Lemma normalized_bbox_inexact :
  scaled_bbox equation_block page2 = [500.5; 501.5; 502.5; 503.5]%float
  ∧ normalized_bbox equation_block page2 ≠ Ok (scaled_bbox equation_block page2)
  ∧ ∃ x rest, normalized_bbox equation_block page2 = Ok (x :: rest)
              ∧ PrimFloat.ltb x 500.5 = true.
Proof.
  split_and!.
  - by vm_compute.
  - intros Heq.
    apply (f_equal (fun r => match r with
                             | Ok (x :: _) => PrimFloat.ltb x 500.5
                             | _ => false
                             end)) in Heq.
    vm_compute in Heq. discriminate.
  - eexists _, _. split; by vm_compute.
Qed.

(** C4 (amended), on the first block of the 1000 x 2000 page. *)
Lemma normalize_block_json_bbox_witness :
  ∃ payload,
    normalize_block_json kind_name (fun _ _ => py "<p>one</p>") text_block doc page1
    = Ok payload
    ∧ payload !! py "bbox" = Some (JArray [JFloat 100; JFloat 100; JFloat 300; JFloat 200]).
Proof.
  exact (proj1 (normalize_block_json_bbox kind_name (fun _ _ => py "<p>one</p>"))
           text_block doc page1 100%float 200%float 300%float 400%float
           eq_refl eq_refl eq_refl).
Defined.

(** C5, on the first block's address. *)
Lemma decode_encode_witness :
  decode (JStr (encode (address "p1" "b1" Text))) = Ok (address "p1" "b1" Text).
Proof.
  apply decode_encode. unfold well_formed.
  split_and!; try (by vm_compute); free_of_slash.
Defined.

Lemma sample_run_reached :
  rtc (step World_pages (World_contained_blocks None) (processor 2) marking_hook)
      (start world) sample_run.
Proof. apply run_rtc. Qed.

Lemma sample_run_raised : main sample_run = Finished (Raise (Exception 7)).
Proof. by vm_compute. Qed.

Lemma marking_hook_keeps_blocks (filter : option (list kind)) :
  hook_keeps_blocks World_pages (World_contained_blocks filter) marking_hook.
Proof.
  intros page a w.
  assert (Hstate : (marking_hook page a w).1 = (set_block_html a seen w).1).
  { unfold marking_hook, bind. simpl. by destruct (block_type a). }
  rewrite Hstate. apply set_block_html_keeps_blocks.
Qed.

(** Along every schedule of the run over the table and the equation with
    two workers, the table's exception is raised and both tasks complete. *)
Example every_schedule_drains :
  let finals := explore World_pages (@World_contained_blocks schema (Some [Table; Equation]))
                  (processor 2) marking_hook 40 (start world) in
  length finals = 142%nat
  ∧ forallb (fun m => match main m with
                      | Finished (Raise (Exception 7)) =>
                          Nat.eqb (length (completed (trace m))) 2
                      | _ => false
                      end) finals = true.
Proof. split; by vm_compute. Qed.

(** The hook of the base class raises [NotImplementedError] for every
    block, and the call raises it. *)
Example base_hook_raises :
  main (run World_pages (World_contained_blocks None) (processor 2)
            process_rewriting_base 200 (start world))
  = Finished (Raise NotImplementedError).
Proof. by vm_compute. Qed.

(** C2, on the sample run: the table's task raises, the call raises its
    exception, all six tasks were started and completed, and every block
    carries the mark of its hook. *)
Lemma first_failure_raises_pool_drains_witness :
  main sample_run = Finished (Raise (Exception 7))
  ∧ queue sample_run = [] ∧ running sample_run = []
  ∧ started (trace sample_run) = submitted (trace sample_run)
  ∧ (completed (trace sample_run)).*1 ≡ₚ submitted (trace sample_run)
  ∧ state sample_run
    = run_hooks marking_hook world (completed (trace sample_run)).*1
  ∧ length (submitted (trace sample_run)) = 6%nat
  ∧ Block_html <$> all_blocks (document (state sample_run)) = replicate 6 (Some seen).
Proof.
  destruct (proj1 (first_failure_raises_pool_drains World_pages
                     (World_contained_blocks None) (processor 2) marking_hook world)
              sample_run _ sample_run_reached sample_run_raised)
    as (Hq & Hr & Hstarted & Hcompleted & Hstate & _).
  split_and!; first [done | by vm_compute].
Defined.



(** C8, on the first page filtered for equations. *)
Lemma no_matching_block_returns_at_once_witness :
  total_blocks World_pages (@World_contained_blocks schema (Some [Equation])) world1 = 0%nat
  ∧ rewrite_blocks World_pages (@World_contained_blocks schema (Some [Equation]))
      (processor 2) marking_hook world1 (world1, [], Ok tt).
Proof.
  destruct (no_matching_block_returns_at_once World_pages
              (@World_contained_blocks schema (Some [Equation])) (processor 2)
              marking_hook world1) as (Hzero & _ & Hout).
  - intros page Hin. change (page ∈ [0%nat]) in Hin.
    apply list_elem_of_singleton in Hin as ->. by vm_compute.
  - split; [done | by apply Hout].
Defined.

(** C9, on the processor with the switch off. *)
Lemma disabled_processor_is_noop_witness :
  Complex_call World_pages (World_contained_blocks None) disabled_processor
    marking_hook world (world, [], Ok tt)
  ∧ llm_service disabled_processor = None.
Proof.
  split.
  - apply (proj1 (disabled_processor_is_noop World_pages (World_contained_blocks None)
                    marking_hook) disabled_processor world); [by left | done].
  - done.
Defined.

Lemma exiting_run_reached :
  rtc (step World_pages (World_contained_blocks None) (processor 2) exiting_hook)
      (start world) exiting_run.
Proof. apply run_rtc. Qed.

(** C6, as stated, fails: a hook that raises [SystemExit] makes
    [rewrite_blocks] raise it, [except Exception] does not catch it, and
    [BaseLLMComplexBlockProcessor.__call__] propagates it to its caller; so
    does [BaseLLMSimpleBlockProcessor.__call__] with a [rewrite_block] that
    raises [KeyboardInterrupt]. *)
Lemma entry_points_propagate_system_exit :
  Complex_call World_pages (World_contained_blocks None) (processor 2) exiting_hook
    world (state exiting_run, trace exiting_run, Raise SystemExit)
  ∧ Simple_call (Pg:=nat) (Bk:=BlockId)
      (fun (_ _ : unit) => raise (S:=World) (A:=unit) KeyboardInterrupt) tt tt world
    = (world, [], Raise KeyboardInterrupt).
Proof.
  split; [|done].
  exists (state exiting_run), (trace exiting_run), (Raise SystemExit). split; [|done].
  exists exiting_run, (Raise SystemExit).
  split_and!; [apply exiting_run_reached | by vm_compute | done].
Qed.

(** C6 (amended), on the sample run, whose exception becomes a warning, and
    on the abstract [rewrite_block] of the base class. *)
Lemma entry_points_catch_exceptions_witness :
  Complex_call World_pages (World_contained_blocks None) (processor 2) marking_hook
    world (state sample_run, (trace sample_run ++ [Warning (Exception 7)])%list, Ok tt)
  ∧ Simple_call (Pg:=nat) (Bk:=BlockId) rewrite_block_base tt tt world
    = (world, [Warning NotImplementedError; Traceback_printed NotImplementedError],
       Ok tt).
Proof.
  destruct (entry_points_catch_exceptions World_pages (World_contained_blocks None)
              (processor 2) marking_hook) as [Hcomplex Hsimple].
  split.
  - destruct (Hcomplex world) as (_ & _ & Hwarns & _).
    refine (Hwarns (state sample_run) (trace sample_run) (Exception 7) eq_refl _ _);
      [done|].
    exists sample_run, (Raise (Exception 7)).
    split_and!; [apply sample_run_reached | apply sample_run_raised | done].
  - exact (proj2 (Hsimple unit unit rewrite_block_base tt tt world)
             world NotImplementedError eq_refl).
Defined.

End Samples.

(** * Further properties *)

(** ** The rewrite applier, continued *)

Section ApplierFrame.
Context `{Schema}.

Lemma find_app_existsb {A} (p : A → bool) (l l' : list A) :
  find p (l ++ l') = if existsb p l then find p l else find p l'.
Proof.
  induction l as [|x l IH]; simpl; [done|]. by destruct (p x).
Qed.

Lemma alter_first_frame {A B} (p : A → bool) (f : A → A) (g : A → B) (l : list A) b :
  find p l = Some b → g (f b) = g b → g <$> alter_first p f l = g <$> l.
Proof.
  intros Hfind Hg. induction l as [|x l IH]; simpl in *; [done|].
  destruct (p x).
  - injection Hfind as ->. by rewrite !fmap_cons, Hg.
  - by rewrite !fmap_cons, IH.
Qed.

Lemma alter_first_block_frame p f (pgs : list PageGroup) b :
  find p (flat_map PageGroup_children pgs) = Some b → Block_frame (f b) = Block_frame b →
  PageGroup_frame <$> alter_first_block p f pgs = PageGroup_frame <$> pgs.
Proof.
  intros Hfind Hf. induction pgs as [|pg pgs IH]; simpl in *; [done|].
  rewrite find_app_existsb in Hfind.
  destruct (existsb p (PageGroup_children pg)); rewrite !fmap_cons.
  - f_equal. unfold PageGroup_frame. simpl. f_equal. by eapply alter_first_frame.
  - by rewrite IH.
Qed.

Lemma assign_html_frame a v d b :
  get_block d a = Some b → is_Some (Block_html b) →
  Document_frame (assign_html a v d) = Document_frame d.
Proof.
  intros Hb Hhtml. unfold Document_frame, assign_html. simpl.
  eapply alter_first_block_frame; [exact Hb|].
  destruct b as [i shape [h|]]; [done | by destruct Hhtml].
Qed.

Lemma apply_record_frame d block_data :
  Document_frame (apply_record d block_data) = Document_frame d.
Proof.
  unfold apply_record. destruct (resolves d block_data) as [[a v]|] eqn:Hr; [|done].
  unfold resolves in Hr.
  destruct (getitem block_data (py "id")) as [id_field|]; [|done].
  destruct (decode id_field) as [a0|]; [|done].
  destruct (get_block d a0) as [b|] eqn:Hb; [|done].
  case_bool_decide as Hhtml; [|done].
  destruct (getitem block_data (py "html")); [|done].
  injection Hr as <- <-. by eapply assign_html_frame.
Qed.

Lemma foldl_apply_record_frame d blocks :
  Document_frame (foldl apply_record d blocks) = Document_frame d.
Proof.
  revert d. induction blocks as [|r blocks IH]; intros d; simpl; [done|].
  by rewrite IH, apply_record_frame.
Qed.

(** One iteration, whatever the record: the document is the record's
    effect, the log grows by at most one entry, and the iteration raises
    exactly when the record's ["id"] cannot be read. *)
Lemma iteration_any (block_data : json) (w : World) :
  ∃ entries,
    (try_except (rewrite_one block_data) (rewrite_failed block_data) w).1
    = {| document := apply_record (document w) block_data; log := log w ++ entries |}
    ∧ (length entries ≤ 1)%nat
    ∧ (is_Some (resolves (document w) block_data) → entries = [])
    ∧ (try_except (rewrite_one block_data) (rewrite_failed block_data) w).2
      = match getitem block_data (py "id") with
        | Ok _ => Ok tt
        | Raise e => Raise e
        end.
Proof.
  unfold try_except, rewrite_one, rewrite_failed, apply_record, resolves, bind, lift,
    get, logger, set_block_html, modify, ret.
  destruct (getitem block_data (py "id")) as [id_field|e] eqn:Hid; simpl;
    rewrite ?(getitem_raises_Exception _ _ _ Hid), ?Hid; simpl.
  - destruct (decode id_field) as [a|e] eqn:Hd; simpl;
      rewrite ?(decode_raises_Exception _ _ Hd), ?Hid; simpl.
    + destruct (get_block (document w) a) as [b|]; simpl.
      * case_bool_decide; simpl.
        { destruct (getitem block_data (py "html")) as [v|e] eqn:Hh; simpl;
            rewrite ?(getitem_raises_Exception _ _ _ Hh), ?Hid; simpl.
          - exists []. rewrite app_nil_r.
            split_and!; first [done | simpl; lia].
          - exists [Debug_error_parsing id_field e].
            split_and!; first [done | by intros []]. }
        { exists []. rewrite app_nil_r. destruct w.
          split_and!; first [done | simpl; lia]. }
      * exists [Debug_not_found a]. split_and!; first [done | by intros []].
    + exists [Debug_error_parsing id_field e].
      split_and!; first [done | by intros []].
  - exists []. rewrite app_nil_r. destruct w.
    split_and!; first [done | simpl; lia].
Qed.

(** The state [handle_rewrites] leaves, whether it returns or raises: the
    effects of the records it reached, and a log that grew by at most one
    entry per record. *)
Lemma handle_rewrites_any (blocks : list json) (w : World) :
  ∃ n entries,
    (handle_rewrites blocks w).1
    = {| document := foldl apply_record (document w) (take n blocks);
         log := log w ++ entries |}
    ∧ (length entries ≤ length blocks)%nat.
Proof.
  revert w. induction blocks as [|r blocks IH]; intros w.
  - exists 0%nat, []. rewrite app_nil_r. destruct w. by split.
  - destruct (iteration_any r w) as (e1 & Hst & Hlen & _ & Hres).
    unfold handle_rewrites in *. simpl. unfold bind at 1.
    destruct (try_except (rewrite_one r) (rewrite_failed r) w) as [w1 [[]|e]] eqn:Hiter;
      simpl in *.
    + destruct (IH w1) as (n & e2 & Hst2 & Hlen2). exists (S n), (e1 ++ e2).
      rewrite Hst2, Hst. simpl. rewrite app_assoc, length_app. split; [done | lia].
    + exists 1%nat, e1. rewrite Hst. simpl. split; [done | lia].
Qed.

(** X1. [handle_rewrites] never changes the shape of the document: for every
    batch, whether the call returns or raises, the pages and their geometry,
    the blocks of each page in order, their addresses and geometry, and which
    blocks have a markup field are what they were. Only the content of
    markup fields can differ. *)
Theorem handle_rewrites_keeps_frame (blocks : list json) (w : World) :
  Document_frame (document (handle_rewrites blocks w).1) = Document_frame (document w).
Proof.
  destruct (handle_rewrites_any blocks w) as (n & entries & -> & _). simpl.
  apply foldl_apply_record_frame.
Qed.

Lemma foldl_resolves d blocks block_data :
  resolves (foldl apply_record d blocks) block_data = resolves d block_data.
Proof.
  revert d. induction blocks as [|r blocks IH]; intros d; simpl; [done|].
  by rewrite IH, resolves_apply_record.
Qed.

Lemma resolves_getitem d block_data :
  is_Some (resolves d block_data) → ∃ id_field, getitem block_data (py "id") = Ok id_field.
Proof.
  unfold resolves. destruct (getitem block_data (py "id")) as [v|e]; [by exists v|].
  by intros [? ?].
Qed.

Lemma has_id_key_getitem block_data :
  has_id_key block_data ↔ ∃ id_field, getitem block_data (py "id") = Ok id_field.
Proof.
  split.
  - intros (fields & v & -> & Hv). exists v. simpl. by rewrite Hv.
  - intros [v Hv]. destruct block_data as [| | | | | |fields]; try done.
    simpl in Hv. destruct (fields !! py "id") as [x|] eqn:Hx; [|done].
    by exists fields, x.
Qed.

Lemma getitem_raises block_data key e :
  getitem block_data key = Raise e → e = KeyError ∨ e = TypeError.
Proof.
  destruct block_data as [| | | | | |fields]; simpl;
    try (intros [= <-]; by right).
  destruct (fields !! key); [done|]. intros [= <-]. by left.
Qed.

Lemma handle_rewrites_resolved (blocks : list json) (w : World) :
  Forall (fun block_data => is_Some (resolves (document w) block_data)) blocks →
  handle_rewrites blocks w
  = ({| document := foldl apply_record (document w) blocks; log := log w |}, Ok tt).
Proof.
  revert w. induction blocks as [|r blocks IH]; intros w Hall.
  - by destruct w.
  - apply Forall_cons in Hall as [Hr Hall].
    destruct (iteration_any r w) as (entries & Hst & _ & Hnone & Hres).
    rewrite (Hnone Hr), app_nil_r in Hst.
    destruct (resolves_getitem _ _ Hr) as [v Hv]. rewrite Hv in Hres.
    unfold handle_rewrites in *. simpl. unfold bind at 1.
    destruct (try_except (rewrite_one r) (rewrite_failed r) w) as [w1 res].
    simpl in Hst, Hres. subst w1 res. rewrite IH; [done|]. simpl.
    eapply Forall_impl; [exact Hall|]. intros x Hx. simpl.
    by rewrite resolves_apply_record.
Qed.

(** X2. The log of [handle_rewrites] only grows, by at most one entry per
    record, whether the call returns or raises; and a batch whose records
    all resolve (the id decodes, the block exists and has a markup field,
    the record holds ["html"]) is applied in full, returns, and logs
    nothing. *)
Theorem handle_rewrites_log (blocks : list json) (w : World) :
  (∃ entries, log (handle_rewrites blocks w).1 = log w ++ entries
              ∧ (length entries ≤ length blocks)%nat)
  ∧ (Forall (fun block_data => is_Some (resolves (document w) block_data)) blocks →
     handle_rewrites blocks w
     = ({| document := foldl apply_record (document w) blocks; log := log w |}, Ok tt)).
Proof.
  split.
  - destruct (handle_rewrites_any blocks w) as (n & entries & -> & Hlen).
    by exists entries.
  - apply handle_rewrites_resolved.
Qed.

Lemma handle_rewrites_cons (r : json) (blocks : list json) (w : World) :
  handle_rewrites (r :: blocks) w
  = match try_except (rewrite_one r) (rewrite_failed r) w with
    | (w1, Ok _) => handle_rewrites blocks w1
    | (w1, Raise e) => (w1, Raise e)
    end.
Proof. done. Qed.

(** X3. [handle_rewrites] returns exactly when every record of the batch is
    a [dict] holding ["id"]; when it raises, the exception is the
    [KeyError] or [TypeError] of reading ["id"] in the [except] clause. *)
Theorem handle_rewrites_returns_iff (blocks : list json) (w : World) :
  ((handle_rewrites blocks w).2 = Ok tt ↔ Forall has_id_key blocks)
  ∧ ∀ e, (handle_rewrites blocks w).2 = Raise e → e = KeyError ∨ e = TypeError.
Proof.
  revert w. induction blocks as [|r blocks IH]; intros w.
  - split; [done|]. by intros e [=].
  - destruct (iteration_any r w) as (entries & _ & _ & _ & Hres).
    rewrite handle_rewrites_cons.
    destruct (try_except (rewrite_one r) (rewrite_failed r) w) as [w1 res].
    simpl in Hres. subst res.
    destruct (getitem r (py "id")) as [v|e0] eqn:Hid.
    + destruct (IH w1) as [IH1 IH2]. split; [|exact IH2].
      rewrite IH1, Forall_cons. split; [|by intros [_ ?]].
      intros Hall. split; [|done]. apply has_id_key_getitem. by exists v.
    + split.
      * split; [done|]. intros [Hr _]%Forall_cons.
        apply has_id_key_getitem in Hr as [v Hv]. congruence.
      * intros e [= <-]. by eapply getitem_raises.
Qed.

(** X4. A record that is not a [dict] (a JSON string, number, list or
    [null], all of which [json.loads] can return) aborts the batch with
    [TypeError]: [block_data["id"]] fails in the [try] and again in the
    [except] clause. The records before it were applied, those after it are
    not reached. *)
Theorem handle_rewrites_non_dict_aborts (pre post : list json) (r : json) (w : World) :
  Forall has_id_key pre → (∀ fields, r ≠ JObject fields) →
  handle_rewrites (pre ++ r :: post) w = ((handle_rewrites pre w).1, Raise TypeError).
Proof.
  intros Hpre Hr. unfold handle_rewrites at 1. rewrite for_each_app.
  destruct (handle_rewrites_fold pre w Hpre) as [lg Hfold].
  unfold handle_rewrites in Hfold |- *. rewrite Hfold. simpl.
  destruct r as [| | | | | |fields]; try done. by destruct (Hr fields).
Qed.

(** The document a call leaves is the effect of a prefix of the batch whose
    length depends on the batch alone. *)
Lemma handle_rewrites_document (blocks : list json) :
  ∃ n, ∀ w : World,
    document (handle_rewrites blocks w).1 = foldl apply_record (document w) (take n blocks).
Proof.
  induction blocks as [|r blocks [n IH]]; [by exists 0%nat|].
  destruct (getitem r (py "id")) as [v|e] eqn:Hid.
  - exists (S n). intros w. rewrite handle_rewrites_cons.
    destruct (iteration_any r w) as (entries & Hst & _ & _ & Hres). rewrite Hid in Hres.
    destruct (try_except (rewrite_one r) (rewrite_failed r) w) as [w1 res].
    simpl in Hst, Hres. subst w1 res. by rewrite IH.
  - exists 1%nat. intros w. rewrite handle_rewrites_cons.
    destruct (iteration_any r w) as (entries & Hst & _ & _ & Hres). rewrite Hid in Hres.
    destruct (try_except (rewrite_one r) (rewrite_failed r) w) as [w1 res].
    simpl in Hst, Hres. by subst w1 res.
Qed.

Lemma alter_first_absorb {A} (p : A → bool) (f g : A → A) (l : list A) :
  (∀ x, p (g x) = p x) → (∀ x, f (g x) = f x) →
  alter_first p f (alter_first p g l) = alter_first p f l.
Proof.
  intros Hp Hf. induction l as [|x l IH]; simpl; [done|].
  destruct (p x) eqn:Hx; simpl.
  - by rewrite Hp, Hx, Hf.
  - by rewrite Hx, IH.
Qed.

Lemma existsb_alter_first {A} (p q : A → bool) (f : A → A) (l : list A) :
  (∀ x, q (f x) = q x) → existsb q (alter_first p f l) = existsb q l.
Proof.
  intros Hq. induction l as [|x l IH]; simpl; [done|].
  destruct (p x); simpl; [by rewrite Hq | by rewrite IH].
Qed.

Lemma alter_first_commute {A} (p q : A → bool) (f g : A → A) (l : list A) :
  (∀ x, p x = true → q x = false) → (∀ x, q (f x) = q x) → (∀ x, p (g x) = p x) →
  alter_first p f (alter_first q g l) = alter_first q g (alter_first p f l).
Proof.
  intros Hpq Hq Hp. induction l as [|x l IH]; simpl; [done|].
  destruct (p x) eqn:Hpx, (q x) eqn:Hqx; simpl.
  - apply Hpq in Hpx. congruence.
  - by rewrite Hpx, Hq, Hqx.
  - by rewrite Hp, Hpx, Hqx.
  - by rewrite Hpx, Hqx, IH.
Qed.

Lemma alter_first_block_absorb p f g (pgs : list PageGroup) :
  (∀ x, p (g x) = p x) → (∀ x, f (g x) = f x) →
  alter_first_block p f (alter_first_block p g pgs) = alter_first_block p f pgs.
Proof.
  intros Hp Hf. induction pgs as [|pg pgs IH]; simpl; [done|].
  destruct (existsb p (PageGroup_children pg)) eqn:Hpg; simpl.
  - rewrite existsb_alter_first, Hpg by done. unfold set_children. simpl.
    by rewrite alter_first_absorb.
  - by rewrite Hpg, IH.
Qed.

Lemma alter_first_block_commute p q f g (pgs : list PageGroup) :
  (∀ x, p x = true → q x = false) → (∀ x, q (f x) = q x) → (∀ x, p (g x) = p x) →
  alter_first_block p f (alter_first_block q g pgs)
  = alter_first_block q g (alter_first_block p f pgs).
Proof.
  intros Hpq Hq Hp. induction pgs as [|pg pgs IH]; simpl; [done|].
  destruct (existsb p (PageGroup_children pg)) eqn:Hpx,
    (existsb q (PageGroup_children pg)) eqn:Hqx; simpl;
    rewrite ?existsb_alter_first, ?Hpx, ?Hqx by done; unfold set_children; simpl.
  - by rewrite alter_first_commute.
  - done.
  - done.
  - by rewrite IH.
Qed.

Lemma assign_html_absorb a v v' d :
  assign_html a v (assign_html a v' d) = assign_html a v d.
Proof.
  unfold assign_html. simpl. f_equal. apply alter_first_block_absorb; [|done].
  intros b. apply has_id_set_html.
Qed.

Lemma assign_html_commute a a' v v' d :
  a ≠ a' → assign_html a v (assign_html a' v' d) = assign_html a' v' (assign_html a v d).
Proof.
  intros Hne. unfold assign_html. simpl. f_equal. apply alter_first_block_commute.
  - intros b. unfold has_id. intros Hb%bool_decide_eq_true.
    apply bool_decide_eq_false. congruence.
  - intros b. apply has_id_set_html.
  - intros b. apply has_id_set_html.
Qed.

Lemma foldl_apply_record_assign_all d0 d blocks :
  (∀ block_data, resolves d block_data = resolves d0 block_data) →
  foldl apply_record d blocks = assign_all d (rewrites d0 blocks).
Proof.
  revert d. induction blocks as [|r blocks IH]; intros d Hd; [done|].
  simpl. rewrite IH.
  - unfold apply_record, rewrites. simpl. rewrite Hd.
    by destruct (resolves d0 r) as [[a v]|].
  - intros x. by rewrite resolves_apply_record.
Qed.

Lemma assign_all_absorb a v v' ops d :
  assign_html a v (assign_all (assign_html a v' d) ops) = assign_html a v (assign_all d ops).
Proof.
  revert d v'. induction ops as [|[b u] ops IH]; intros d v'; simpl.
  - apply assign_html_absorb.
  - destruct (decide (b = a)) as [->|Hne].
    + by rewrite assign_html_absorb.
    + rewrite (assign_html_commute b a) by done. apply IH.
Qed.

Lemma assign_all_twice ops d : assign_all (assign_all d ops) ops = assign_all d ops.
Proof.
  revert d. induction ops as [|[a v] ops IH] using rev_ind; intros d; [done|].
  unfold assign_all in *. rewrite !foldl_snoc. simpl.
  pose proof (assign_all_absorb a v v ops (assign_all d ops)) as Habs.
  unfold assign_all in Habs. by rewrite Habs, IH.
Qed.

Lemma assign_all_Permutation ops ops' d :
  ops ≡ₚ ops' → NoDup ops.*1 → assign_all d ops = assign_all d ops'.
Proof.
  intros Hperm. revert d.
  induction Hperm as [|x l l' Hperm IH|x y l|l l' l'' H1 IH1 H2 IH2]; intros d Hnd.
  - done.
  - simpl. apply IH. rewrite fmap_cons in Hnd. by apply NoDup_cons in Hnd as [_ ?].
  - simpl. rewrite !fmap_cons in Hnd. apply NoDup_cons in Hnd as [Hy _].
    rewrite (assign_html_commute x.1 y.1); [done|].
    intros Heq. apply Hy. rewrite Heq. apply list_elem_of_here.
  - rewrite IH1 by done. apply IH2. by rewrite <- H1.
Qed.

(** X5. [handle_rewrites] is idempotent on the document: for every batch,
    applying it a second time leaves the document exactly as the first
    application left it (the log grows again). *)
Theorem handle_rewrites_idempotent (blocks : list json) (w : World) :
  document (handle_rewrites blocks (handle_rewrites blocks w).1).1
  = document (handle_rewrites blocks w).1.
Proof.
  destruct (handle_rewrites_document blocks) as [n Hdoc]. rewrite !Hdoc.
  generalize (take n blocks). intros bs.
  rewrite (foldl_apply_record_assign_all (document w) (foldl apply_record (document w) bs))
    by (intros x; apply foldl_resolves).
  rewrite (foldl_apply_record_assign_all (document w) (document w)) by done.
  apply assign_all_twice.
Qed.

(** X6. The order of the records of a batch matters only between records
    naming the same block: when every record is a [dict] holding ["id"] and
    no two records resolve to the same address, every reordering of the
    batch leaves the same document. *)
Theorem handle_rewrites_order_irrelevant (blocks blocks' : list json) (w : World) :
  Forall has_id_key blocks → blocks ≡ₚ blocks' →
  NoDup (rewrites (document w) blocks).*1 →
  document (handle_rewrites blocks' w).1 = document (handle_rewrites blocks w).1.
Proof.
  intros Hall Hperm Hnd.
  assert (Forall has_id_key blocks') as Hall' by by rewrite <- Hperm.
  destruct (handle_rewrites_fold blocks w Hall) as [lg ->].
  destruct (handle_rewrites_fold blocks' w Hall') as [lg' ->]. simpl.
  rewrite !(foldl_apply_record_assign_all (document w) (document w)) by done.
  symmetry. apply assign_all_Permutation; [|done].
  unfold rewrites. by rewrite Hperm.
Qed.

End ApplierFrame.

(** ** The blocks a processor works on *)

Section InferenceBlocks.
Context `{Schema}.

Lemma apply_record_matching_ids (block_types : option (list BlockTypes)) d block_data :
  matching_ids block_types <$> pages (apply_record d block_data)
  = matching_ids block_types <$> pages d.
Proof.
  unfold apply_record. destruct (resolves d block_data) as [[a v]|]; [|done].
  unfold assign_html, matching_ids. simpl. apply matching_ids_alter_first_block.
Qed.

Lemma foldl_matching_ids (block_types : option (list BlockTypes)) d blocks :
  matching_ids block_types <$> pages (foldl apply_record d blocks)
  = matching_ids block_types <$> pages d.
Proof.
  revert d. induction blocks as [|r blocks IH]; intros d; simpl; [done|].
  by rewrite IH, apply_record_matching_ids.
Qed.

Lemma matching_ids_World (block_types : option (list BlockTypes)) (w w' : World) :
  matching_ids block_types <$> pages (document w')
  = matching_ids block_types <$> pages (document w) →
  World_pages w' = World_pages w
  ∧ ∀ page, World_contained_blocks block_types w' page
            = World_contained_blocks block_types w page.
Proof.
  intros Heq. split.
  - unfold World_pages. f_equal.
    apply (f_equal length) in Heq. by rewrite !length_fmap in Heq.
  - intros page. rewrite !World_contained_blocks_lookup.
    unfold matching_ids in Heq. by rewrite Heq.
Qed.

Lemma handle_rewrites_matching_ids (block_types : option (list BlockTypes))
    (blocks : list json) (w : World) :
  matching_ids block_types <$> pages (document (handle_rewrites blocks w).1)
  = matching_ids block_types <$> pages (document w).
Proof.
  destruct (handle_rewrites_any blocks w) as (n & entries & -> & _). simpl.
  apply foldl_matching_ids.
Qed.

(** X7. [handle_rewrites] never changes what a processor enumerates: for
    every batch and every filter, [inference_blocks] gives the same pairs
    after the call as before it; so a hook that answers its task by applying
    a batch of rewrites, whatever the batch, leaves the pages and the
    matching blocks of every page in place. *)
Theorem handle_rewrites_keeps_inference_blocks (block_types : option (list BlockTypes))
    (respond : nat → BlockId → World → list json) :
  (∀ blocks w, inference_blocks block_types (handle_rewrites blocks w).1
               = inference_blocks block_types w)
  ∧ hook_keeps_blocks World_pages (World_contained_blocks block_types)
      (fun page block w => handle_rewrites (respond page block w) w).
Proof.
  split.
  - intros blocks w.
    destruct (matching_ids_World block_types w (handle_rewrites blocks w).1
                (handle_rewrites_matching_ids block_types blocks w)) as [Hpages Hblocks].
    unfold inference_blocks. rewrite Hpages. apply flat_map_ext. intros page.
    by rewrite Hblocks.
  - intros page block w. apply matching_ids_World, handle_rewrites_matching_ids.
Qed.

(** X8. What [inference_blocks] returns: the pair of a page position and an
    address is listed exactly when the page at that position owns a block
    with that address whose type the filter allows. *)
Theorem inference_blocks_spec (block_types : option (list BlockTypes)) (w : World)
    (page : nat) (a : BlockId) :
  (page, a) ∈ inference_blocks block_types w
  ↔ ∃ pg b, pages (document w) !! page = Some pg ∧ b ∈ PageGroup_children pg
            ∧ matches block_types b = true ∧ Block_id b = a.
Proof.
  unfold inference_blocks, World_pages, World_contained_blocks.
  rewrite list_elem_of_In, in_flat_map. split.
  - intros (page' & _ & Hin). apply list_elem_of_In, list_elem_of_fmap in Hin.
    destruct Hin as (a' & [= <- <-] & Ha).
    destruct (pages (document w) !! page) as [pg|]; [|by apply elem_of_nil in Ha].
    apply list_elem_of_fmap in Ha as (b & -> & Hb).
    apply list_elem_of_filter in Hb as [Hm Hb]. by exists pg, b.
  - intros (pg & b & Hpg & Hb & Hm & <-). exists page. split.
    + apply in_seq. apply lookup_lt_Some in Hpg. lia.
    + apply list_elem_of_In, list_elem_of_fmap. exists (Block_id b). split; [done|].
      rewrite Hpg. apply list_elem_of_fmap. exists b. split; [done|].
      by apply list_elem_of_filter.
Qed.

Lemma flat_map_fmap {A B C} (f : B → list C) (g : A → B) (l : list A) :
  flat_map f (g <$> l) = flat_map (fun x => f (g x)) l.
Proof.
  induction l as [|x l IH]; [done|]. rewrite fmap_cons. cbn [flat_map]. by rewrite IH.
Qed.

Lemma flat_map_lookups {A} (ls : list (list A)) :
  flat_map (fun i => default [] (ls !! i)) (seq 0 (length ls)) = concat ls.
Proof.
  induction ls as [|x ls IH]; [done|].
  change (seq 0 (length (x :: ls))) with (0%nat :: seq 1 (length ls)).
  rewrite <- fmap_S_seq.
  change (concat (x :: ls)) with (x ++ concat ls). rewrite <- IH.
  change (flat_map ?f (?a :: ?l)) with (f a ++ flat_map f l).
  by rewrite flat_map_fmap.
Qed.

Lemma flat_map_pairs {A B} (h : A → list B) (l : list A) :
  (flat_map (fun x => pair x <$> h x) l).*2 = flat_map h l.
Proof.
  induction l as [|x l IH]; [done|]. cbn [flat_map].
  rewrite fmap_app, IH. f_equal.
  induction (h x) as [|y ys IHy]; [done|]. by rewrite !fmap_cons, IHy.
Qed.

Lemma concat_matching_ids (block_types : option (list BlockTypes)) (pgs : list PageGroup) :
  concat (matching_ids block_types <$> pgs)
  = Block_id <$> filter (fun b => matches block_types b = true)
                        (flat_map PageGroup_children pgs).
Proof.
  induction pgs as [|pg pgs IH]; [done|].
  rewrite fmap_cons. cbn [concat flat_map].
  by rewrite filter_app, fmap_app, IH.
Qed.

(** X9. [inference_blocks] lists the blocks in document order: its addresses
    are those of the blocks of the document, page after page, that the filter
    allows, and with no filter ([block_types = None]) they are the addresses
    of all the blocks. *)
Theorem inference_blocks_document_order (w : World) :
  (∀ block_types : option (list BlockTypes),
     (inference_blocks block_types w).*2
     = Block_id <$> filter (fun b => matches block_types b = true)
                           (all_blocks (document w)))
  ∧ (inference_blocks None w).*2 = Block_id <$> all_blocks (document w).
Proof.
  assert (∀ block_types : option (list BlockTypes),
            (inference_blocks block_types w).*2
            = Block_id <$> filter (fun b => matches block_types b = true)
                                  (all_blocks (document w))) as Hall.
  { intros block_types. unfold inference_blocks, World_pages, all_blocks.
    rewrite flat_map_pairs, <- concat_matching_ids.
    rewrite <- flat_map_lookups, length_fmap. apply flat_map_ext. intros page.
    rewrite World_contained_blocks_lookup. done. }
  split; [exact Hall|]. rewrite Hall. f_equal. clear Hall.
  induction (all_blocks (document w)) as [|b bs IH]; [done|].
  rewrite filter_cons_True by done. by rewrite IH.
Qed.

End InferenceBlocks.

(** ** The batch decoder *)

Section LoadBlocksProperties.
Variable json_loads : pystr → result json.

Lemma loads_all_Forall2 (items blocks : list json) :
  loads_all json_loads items = Ok blocks
  ↔ Forall2 (fun item v => loads_item json_loads item = Ok v) items blocks.
Proof.
  revert blocks. induction items as [|item items IH]; intros blocks; simpl.
  - split; [intros [= <-]; constructor | by intros ->%Forall2_nil_inv_l].
  - destruct (loads_item json_loads item) as [v|e] eqn:Hitem; simpl.
    + destruct (loads_all json_loads items) as [vs|e] eqn:Hrest; simpl.
      * split.
        { intros [= <-]. constructor; [done | by apply IH]. }
        { intros (v' & vs' & Hv & Hvs & ->)%Forall2_cons_inv_l.
          apply IH in Hvs. congruence. }
      * split; [done|].
        intros (v' & vs' & _ & Hvs & _)%Forall2_cons_inv_l. by apply IH in Hvs.
    + split; [done|].
      intros (v' & vs' & Hv & _)%Forall2_cons_inv_l. congruence.
Qed.

Lemma loads_all_first_failure (before after : list json) (bad : json) e :
  Forall (fun item => ∃ v, loads_item json_loads item = Ok v) before →
  loads_item json_loads bad = Raise e →
  loads_all json_loads (before ++ bad :: after) = Raise e.
Proof.
  intros Hbefore Hbad. induction Hbefore as [|item before [v Hv] _ IH]; simpl.
  - by rewrite Hbad.
  - by rewrite Hv, IH.
Qed.

(** X10. [load_blocks] is all or nothing and keeps the order: on a response
    whose ["blocks"] is a list it returns exactly when [json.loads] accepts
    every element, and what it returns is the decoded elements one for one,
    in the order of the list; otherwise it raises what the first rejected
    element raised, a [TypeError] for an element that is not a [str]. *)
Theorem load_blocks_all_or_nothing (response : json) (items : list json) :
  getitem response (py "blocks") = Ok (JArray items) →
  (∀ blocks, load_blocks json_loads response = Ok blocks
             ↔ Forall2 (fun item v => loads_item json_loads item = Ok v) items blocks)
  ∧ (∀ blocks, load_blocks json_loads response = Ok blocks →
               length blocks = length items)
  ∧ (∀ before bad after e,
       items = before ++ bad :: after →
       Forall (fun item => ∃ v, loads_item json_loads item = Ok v) before →
       loads_item json_loads bad = Raise e →
       load_blocks json_loads response = Raise e)
  ∧ (∀ item, (∀ s, item ≠ JStr s) → loads_item json_loads item = Raise TypeError).
Proof.
  intros Hblocks. unfold load_blocks. rewrite Hblocks. simpl. split_and!.
  - intros blocks. apply loads_all_Forall2.
  - intros blocks Hok%loads_all_Forall2. symmetry. by eapply Forall2_length.
  - intros before bad after e -> Hbefore Hbad. by apply loads_all_first_failure.
  - intros item Hitem. destruct item as [| | | |s| |]; try done. by destruct (Hitem s).
Qed.

Lemma loads_all_raises (items : list json) e :
  loads_all json_loads items = Raise e →
  e = TypeError ∨ ∃ s, json_loads s = Raise e.
Proof.
  induction items as [|item items IH]; simpl; [done|].
  destruct (loads_item json_loads item) as [v|e0] eqn:Hitem; simpl.
  - destruct (loads_all json_loads items) as [vs|e1]; simpl; [done|].
    intros [= <-]. by apply IH.
  - intros [= <-]. destruct item as [| | | |s| |]; simpl in Hitem;
      try (injection Hitem as <-; by left).
    right. by exists s.
Qed.

(** X11. What [load_blocks] can raise: the [KeyError] or [TypeError] of
    [response["blocks"]], the [TypeError] of iterating a value that is not
    iterable or of decoding an element that is not a [str], or whatever
    [json.loads] raised on an element. *)
Theorem load_blocks_raises (response : json) (e : exn) :
  load_blocks json_loads response = Raise e →
  e = KeyError ∨ e = TypeError ∨ ∃ s, json_loads s = Raise e.
Proof.
  unfold load_blocks.
  destruct (getitem response (py "blocks")) as [blocks|e0] eqn:Hget; simpl.
  - destruct (iterate blocks) as [items|e1] eqn:Hiter; simpl.
    + intros [->|Hloads]%loads_all_raises; [right; by left | right; by right].
    + intros [= <-]. right; left.
      by destruct blocks; simpl in Hiter; try injection Hiter as <-.
  - intros [= <-]. destruct (getitem_raises _ _ _ Hget) as [->| ->];
      [by left | right; by left].
Qed.

End LoadBlocksProperties.

(** ** What the address decoder tolerates *)

Section DecodingTolerance.
Context `{Schema}.

Lemma lstrip_by_Forall p (t rest : pystr) :
  Forall (fun c => p c = true) t → lstrip_by p (t ++ rest) = lstrip_by p rest.
Proof. induction 1 as [|c t Hc _ IH]; simpl; [done|]. by rewrite Hc. Qed.

Lemma rstrip_by_Forall p (x t : pystr) :
  Forall (fun c => p c = true) t → rstrip_by p (x ++ t) = rstrip_by p x.
Proof.
  intros Ht. unfold rstrip_by. rewrite rev_app_distr, lstrip_by_Forall; [done|].
  by apply Forall_rev.
Qed.

Lemma lstrip_by_fixed p (l : pystr) :
  Forall (fun c => p c = false) l → lstrip_by p l = l.
Proof. destruct 1 as [|c l Hc _]; simpl; [done|]. by rewrite Hc. Qed.

Lemma lstrip_by_nil_app p (x y : pystr) :
  lstrip_by p x = [] → lstrip_by p (x ++ y) = lstrip_by p y.
Proof.
  intros Hx. destruct (lstrip_by_decomp p x) as (t & Ht & Hall).
  rewrite Hx, app_nil_r in Ht. subst t. by apply lstrip_by_Forall.
Qed.

Lemma separators_not_space (sl : pystr) :
  Forall (fun c => c = slash) sl → Forall (fun c => isspace c = false) sl.
Proof. intros Hsl. eapply Forall_impl; [exact Hsl|]. by intros c ->. Qed.

Lemma separators_stripped (sl rest : pystr) :
  Forall (fun c => c = slash) sl → lstrip_slash (sl ++ rest) = lstrip_slash rest.
Proof.
  intros Hsl. apply lstrip_by_Forall. eapply Forall_impl; [exact Hsl|].
  by intros c ->.
Qed.

Lemma rstrip_after_separators (sl s : pystr) :
  Forall (fun c => c = slash) sl →
  rstrip_by isspace (sl ++ s) = sl ++ rstrip_by isspace s.
Proof.
  intros Hsl. unfold rstrip_by. rewrite rev_app_distr.
  destruct (lstrip_by isspace (rev s)) as [|c rest] eqn:Hs.
  - rewrite lstrip_by_nil_app by done. rewrite lstrip_by_fixed.
    + by rewrite rev_involutive, app_nil_r.
    + by apply Forall_rev, separators_not_space.
  - rewrite lstrip_by_app_nonempty by (by rewrite Hs). rewrite Hs.
    by rewrite rev_app_distr, rev_involutive.
Qed.

Lemma strip_padded (ws sl s ws' : pystr) :
  Forall (fun c => isspace c = true) ws → Forall (fun c => c = slash) sl →
  Forall (fun c => isspace c = true) ws' → lstrip_by isspace s = s →
  strip (ws ++ sl ++ s ++ ws') = sl ++ rstrip_by isspace s.
Proof.
  intros Hws Hsl Hws' Hs. unfold strip. rewrite lstrip_by_Forall by done.
  rewrite <- rstrip_after_separators by done. rewrite app_assoc.
  assert (lstrip_by isspace (sl ++ s) = sl ++ s) as Hfixed.
  { destruct Hsl as [|c sl -> _]; [done|]. done. }
  destruct (sl ++ s) as [|c rest] eqn:Hy.
  - simpl. rewrite <- (app_nil_r ws'), lstrip_by_Forall by done. done.
  - rewrite lstrip_by_app_nonempty by (by rewrite Hfixed).
    rewrite Hfixed. by apply rstrip_by_Forall.
Qed.

(** X12. The decoder ignores whitespace around an id and any number of
    leading separators, none included: an id padded with whitespace on both
    sides and prefixed with separators decodes, or fails to decode, exactly
    as the bare id does. *)
Theorem decode_ignores_padding (ws sl s ws' : pystr) :
  Forall (fun c => isspace c = true) ws → Forall (fun c => c = slash) sl →
  Forall (fun c => isspace c = true) ws' → lstrip_by isspace s = s →
  decode (JStr (ws ++ sl ++ s ++ ws')) = decode (JStr s).
Proof.
  intros Hws Hsl Hws' Hs. rewrite !decode_segments. unfold segments.
  rewrite strip_padded by done. rewrite separators_stripped by done.
  unfold strip. by rewrite Hs.
Qed.


End DecodingTolerance.

(** ** The request builder, continued *)

Section RequestProperties.
Context `{Schema}.
Variable BlockTypes_str : BlockTypes → pystr.
Variable render_html : Block → Document → pystr.

(** X14. [normalize_block_json] returns exactly when the block's box has its
    four coordinates and neither page dimension is zero; otherwise it raises
    the [IndexError] of the missing coordinate or the [ZeroDivisionError] of
    the division, and nothing else. *)
Theorem normalize_block_json_returns_iff (block : Block) (document : Document)
    (page : PageGroup) :
  ((∃ payload, normalize_block_json BlockTypes_str render_html block document page
               = Ok payload)
   ↔ (4 ≤ length (bbox (Block_polygon block)))%nat
     ∧ PrimFloat.eqb (width (PageGroup_polygon page)) 0 = false
     ∧ PrimFloat.eqb (height (PageGroup_polygon page)) 0 = false)
  ∧ ∀ e, normalize_block_json BlockTypes_str render_html block document page = Raise e →
         e = IndexError ∨ e = ZeroDivisionError.
Proof.
  unfold normalize_block_json, normalized_bbox, index, truediv.
  destruct (bbox (Block_polygon block)) as [|x0 [|y0 [|x1 [|y1 rest]]]];
    destruct (PrimFloat.eqb (width (PageGroup_polygon page)) 0);
    destruct (PrimFloat.eqb (height (PageGroup_polygon page)) 0); simpl;
    (split;
     [ split;
       [ intros [payload Hp]; first [discriminate Hp | split_and!; first [done | lia]]
       | intros (Hlen & Hw & Hh); first [discriminate | lia | by eexists] ]
     | intros e [= <-]; by (left + right) ]).
Qed.

Lemma payload_lookup_id (payload : gmap pystr json) (block : Block) (document : Document)
    (page : PageGroup) (html : json) :
  normalize_block_json BlockTypes_str render_html block document page = Ok payload →
  (<[py "html" := html]> payload) !! py "id" = Some (JStr (encode (Block_id block))).
Proof.
  unfold normalize_block_json.
  destruct (normalized_bbox block page) as [nb|e]; simpl; [|done].
  intros [= <-]. rewrite lookup_insert_ne by (by vm_compute).
  by rewrite lookup_insert_eq.
Qed.

(** X15. The request and the rewrite fit together: when the address of a
    block survives encoding and decoding, the payload [normalize_block_json]
    built for it, sent back with new markup under ["html"], is a record that
    [handle_rewrites] applies to that very block, without a log entry; the
    other keys of the payload are ignored. *)
Theorem payload_rewrites_its_block (block b : Block) (d : Document) (page : PageGroup)
    (payload : gmap pystr json) (html : json) (w : World) :
  normalize_block_json BlockTypes_str render_html block d page = Ok payload →
  decode (JStr (encode (Block_id block))) = Ok (Block_id block) →
  get_block (document w) (Block_id block) = Some b → is_Some (Block_html b) →
  handle_rewrites [JObject (<[py "html" := html]> payload)] w
  = ({| document := assign_html (Block_id block) html (document w); log := log w |},
     Ok tt)
  ∧ html_at (document (handle_rewrites [JObject (<[py "html" := html]> payload)] w).1)
            (Block_id block) = Some html.
Proof.
  intros Hpayload Hcodec Hb Hhtml.
  assert (resolves (document w) (JObject (<[py "html" := html]> payload))
          = Some (Block_id block, html)) as Hres.
  { unfold resolves. simpl. rewrite (payload_lookup_id _ _ _ _ _ Hpayload), Hcodec, Hb.
    rewrite bool_decide_eq_true_2 by done. by rewrite lookup_insert_eq. }
  rewrite handle_rewrites_resolved.
  - simpl. unfold apply_record. rewrite Hres. split; [done|]. simpl.
    rewrite (html_at_assign_html _ _ _ _ b) by done. by rewrite decide_True.
  - apply Forall_singleton. by rewrite Hres.
Qed.

End RequestProperties.

(** ** The whole-document orchestrator, continued *)

Section PoolProperties.
Context {St Pg Bk Service : Type}.
Variable document_pages : St → list Pg.
Variable contained_blocks : St → Pg → list Bk.
Variable self : @BaseLLMProcessor Service.
Variable process_rewriting : Pg → Bk → M St unit.

Local Abbreviation steps_to := (step document_pages contained_blocks self process_rewriting).
Local Abbreviation transition :=
  (transition document_pages contained_blocks self process_rewriting).
Local Abbreviation machine := (@machine St Pg Bk).
Local Abbreviation hooks := (run_hooks process_rewriting).
Local Abbreviation results := (run_results process_rewriting).

Lemma updates_app (tr tr' : list (@event Pg Bk)) :
  updates (tr ++ tr') = updates tr ++ updates tr'.
Proof. apply omap_app. Qed.
Lemma yielded_ok_app (tr tr' : list (@event Pg Bk)) :
  yielded_ok (tr ++ tr') = yielded_ok tr ++ yielded_ok tr'.
Proof. apply omap_app. Qed.

Local Ltac events_simpl :=
  rewrite ?submitted_app, ?started_app, ?completed_app, ?yielded_app, ?updates_app,
    ?yielded_ok_app;
  cbn [submitted started completed yielded updates yielded_ok omap list_omap option_bind];
  rewrite ?app_nil_r.

Local Ltac by_transition H :=
  destruct H as
      [Hpc Hzero|Hpc Hsome Hk|Hpc Hsome Hk|ps t ts Hpc|page ps Hpc|Hpc
      |Hpc Hq Hr Hd|t u before after Hpc Hd|t e before after Hpc Hd|r Hpc Hq Hr
      |t rest Halive Hq Hfree|t before after Halive Hrunning].

(** Induction over the machines of a call. *)
Lemma reachable_ind (P : machine → Prop) (s : St) :
  P (start s) →
  (∀ m m', rtc steps_to (start s) m → P m → transition m m' → P m') →
  ∀ m, rtc steps_to (start s) m → P m.
Proof.
  intros Hstart Hstep m Hrun. revert m Hrun. apply rtc_ind_r; [done|].
  intros m m' Hrun Hs%step_transition IH. by eapply Hstep.
Qed.

(** X16. The pool never runs more tasks at once than [max_concurrency]: at
    every point of every schedule of [rewrite_blocks], the tasks in flight
    are at most the [max_workers] the executor was created with. *)
Theorem pool_never_exceeds_max_workers (s : St) (m : machine) :
  rtc steps_to (start s) m → (length (running m) ≤ workers self)%nat.
Proof.
  revert m. apply reachable_ind; [simpl; lia|].
  intros m m' _ IH Htrans. by_transition Htrans; simpl; try done.
  - rewrite length_app. simpl. lia.
  - rewrite Hrunning, length_app in IH. simpl in IH. rewrite length_app. lia.
Qed.

(** With one worker a task starts only when its predecessor has
    completed. *)
Lemma single_worker_order (s : St) (m : machine) :
  workers self = 1%nat → rtc steps_to (start s) m →
  started (trace m) = (completed (trace m)).*1 ++ running m
  ∧ (length (running m) ≤ 1)%nat.
Proof.
  intros Hone. revert m. apply reachable_ind; [simpl; split; [done | lia]|].
  intros m m' _ [IHo IHl] Htrans. by_transition Htrans; simpl; events_simpl; try done.
  - by destruct r; events_simpl.
  - rewrite Hone in Hfree. destruct (running m) as [|t' r']; [|simpl in Hfree; lia].
    rewrite app_nil_r in IHo. rewrite IHo. simpl. split; [done | lia].
  - rewrite Hrunning in IHo, IHl. rewrite length_app in IHl. simpl in IHl.
    destruct before as [|b0 before]; [|simpl in IHl; lia].
    destruct after as [|a0 after]; [|simpl in IHl; lia].
    rewrite fmap_app, app_nil_r. simpl. split; [done | lia].
Qed.

(** X17. With [max_concurrency = 1] and hooks that leave the pages and the
    matching blocks of every page in place, the call is sequential: whatever
    the schedule, when [rewrite_blocks] returns or raises the hooks have
    completed in the order of the enumeration, the state is that of running
    them one after the other in that order, each on the state its
    predecessor left, and every hook has run, those after a failing one
    included. *)
Theorem single_worker_is_sequential (s : St) :
  max_concurrency (config self) = 1%Z →
  hook_keeps_blocks document_pages contained_blocks process_rewriting →
  ∀ (m : machine) r, rtc steps_to (start s) m → main m = Finished r →
    (completed (trace m)).*1 = all_tasks document_pages contained_blocks s
    ∧ state m = hooks s (all_tasks document_pages contained_blocks s)
    ∧ completed (trace m) = results s (all_tasks document_pages contained_blocks s).
Proof.
  intros Hone Hkeeps m r Hrun Hfin.
  assert (workers self = 1%nat) as Hworkers by (unfold workers; by rewrite Hone).
  destruct (single_worker_order s m Hworkers Hrun) as [Horder _].
  destruct (finished_drained document_pages contained_blocks self process_rewriting
              s m r Hrun Hfin) as (_ & Hrunning & Hstarted & _).
  destruct (enumeration_reachable document_pages contained_blocks self process_rewriting
              s m Hkeeps Hrun) as (_ & _ & Henum).
  rewrite Hfin in Henum. destruct Henum as [Henum|Hk]; [|lia].
  rewrite Hrunning, app_nil_r in Horder.
  destruct (state_sequential document_pages contained_blocks self process_rewriting s m Hrun) as [Hstate Hresults].
  assert ((completed (trace m)).*1 = all_tasks document_pages contained_blocks s) as Hc
    by congruence.
  rewrite Hc in Hstate, Hresults. by split_and!.
Qed.

(** X18. A [max_concurrency] that is zero or negative, with a block to
    process: the executor's constructor raises [ValueError] after the
    progress bar was created. That is the only outcome: no task is
    submitted, the state is untouched, and the bar is never closed. *)
Theorem nonpositive_max_workers_raises (s : St) :
  (max_concurrency (config self) ≤ 0)%Z →
  total_blocks document_pages contained_blocks s ≠ 0%nat →
  ∀ out, rewrite_blocks document_pages contained_blocks self process_rewriting s out
         ↔ out = (s, [Tqdm_created (disable_tqdm (config self))], Raise ValueError).
Proof.
  intros Hk Hsome.
  assert (Hnext : next document_pages contained_blocks self process_rewriting (start s)
                  = [{| main := Finished (Raise ValueError); state := s; queue := [];
                        running := []; done := [];
                        trace := [Tqdm_created (disable_tqdm (config self))] |}]).
  { unfold next, main_steps, worker_steps. simpl.
    destruct (Nat.eqb_spec (total_blocks document_pages contained_blocks s) 0); [done|].
    destruct (Z.leb_spec (max_concurrency (config self)) 0); [done | lia]. }
  intros out. split.
  - intros (m & r & Hrun & Hfin & ->).
    apply rtc_inv in Hrun as [<-|(m1 & Hstep & Hrun)]; [done|].
    unfold step in Hstep. rewrite Hnext in Hstep.
    apply list_elem_of_singleton in Hstep as ->.
    apply rtc_inv in Hrun as [<-|(m2 & Hstep & _)].
    + simpl in *. by injection Hfin as <-.
    + by apply elem_of_nil in Hstep.
  - intros ->.
    exists {| main := Finished (Raise ValueError); state := s; queue := [];
              running := []; done := [];
              trace := [Tqdm_created (disable_tqdm (config self))] |}, (Raise ValueError).
    split_and!; [|done..].
    apply rtc_once. unfold step. rewrite Hnext. by apply list_elem_of_singleton.
Qed.

Lemma updates_count (s : St) (m : machine) :
  rtc steps_to (start s) m → length (updates (trace m)) = length (yielded_ok (trace m)).
Proof.
  revert m. apply reachable_ind; [done|].
  intros m m' _ IH Htrans. by_transition Htrans; simpl; events_simpl; try done.
  - rewrite !length_app. simpl. lia.
  - by destruct r; events_simpl.
Qed.

Lemma yielded_ok_yielded (tr : list (@event Pg Bk)) :
  yielded_ok tr
  = omap (fun f : Pg * Bk * result unit =>
            match f.2 with Ok _ => Some f.1 | Raise _ => None end) (yielded tr).
Proof.
  induction tr as [|ev tr IH]; [done|].
  destruct ev as [| | | | |t [u|e]| | | | |]; cbn [yielded_ok yielded omap list_omap];
    simpl; try done; unfold yielded_ok, yielded in IH; by rewrite IH.
Qed.

Lemma succeeded_count (fs : list (Pg * Bk * result unit)) :
  Forall succeeded fs →
  length (omap (fun f : Pg * Bk * result unit =>
                  match f.2 with Ok _ => Some f.1 | Raise _ => None end) fs)
  = length fs.
Proof.
  induction 1 as [|[t [u|e]] fs Hf _ IH]; [done| |done].
  simpl. f_equal. exact IH.
Qed.

(** The bar is closed only on the way to a normal return. *)
Lemma closed_only_on_return (s : St) (m : machine) :
  rtc steps_to (start s) m → Pbar_close ∈ trace m → ∃ u, main m = Finished (Ok u).
Proof.
  revert m.
  apply (reachable_ind (fun m => Pbar_close ∈ trace m → ∃ u, main m = Finished (Ok u)));
    [by intros ?%elem_of_nil|].
  intros m m' _ IH Htrans.
  by_transition Htrans; simpl; intros Hin;
    try (apply elem_of_app in Hin as [Hin|Hin]);
    try (destruct (IH Hin) as [u0 Hu]; rewrite Hu in *; simpl in *; discriminate);
    repeat (apply elem_of_cons in Hin as [Hin|Hin]; [try discriminate|]);
    try (by apply elem_of_nil in Hin).
  destruct r as [u0|e0]; [by exists u0|].
  by apply elem_of_nil in Hin.
Qed.

(** Once an executor exists the trace holds the bar and the executor. *)
Lemma executor_in_trace (s : St) (m : machine) :
  (0 < max_concurrency (config self))%Z → rtc steps_to (start s) m →
  main m ≠ Counting → (2 ≤ length (trace m))%nat ∨ ∃ u, main m = Finished (Ok u).
Proof.
  intros Hpos. revert m.
  apply (reachable_ind (fun m => main m ≠ Counting →
           (2 ≤ length (trace m))%nat ∨ ∃ u, main m = Finished (Ok u))); [done|].
  intros m m' _ IH Htrans.
  by_transition Htrans; simpl; intros _; rewrite ?length_app; simpl;
    try (right; by eexists);
    try lia;
    try (destruct IH as [IH|[u0 Hu]];
         [by rewrite Hpc | lia | rewrite Hu in *; simpl in *; discriminate]).
  - destruct IH as [IH|[u0 Hu]]; [|lia|rewrite Hu in *; simpl in *; discriminate].
    intros Hc. rewrite Hc in Halive. discriminate.
  - destruct IH as [IH|[u0 Hu]]; [|lia|rewrite Hu in *; simpl in *; discriminate].
    intros Hc. rewrite Hc in Halive. discriminate.
Qed.

Lemma closed_at_return (s : St) (m : machine) u :
  rtc steps_to (start s) m → main m = Finished (Ok u) →
  trace m = [] ∨ last (trace m) = Some Pbar_close.
Proof.
  intros Hrun. revert u. revert m Hrun.
  apply (reachable_ind (fun m => ∀ u, main m = Finished (Ok u) →
           trace m = [] ∨ last (trace m) = Some Pbar_close)); [done|].
  intros m m' Hrun IH Htrans.
  pose proof (inv_phase _ _ (invariant_reachable document_pages contained_blocks self
                               process_rewriting s m Hrun)) as Hphase.
  unfold phase_ok in Hphase.
  by_transition Htrans; simpl; intros u0 Hfin; try discriminate.
  - rewrite Hpc in Hphase. left. by destruct Hphase as [-> _].
  - right. injection Hfin as ->.
    change (trace m ++ [Executor_shutdown; Pbar_close])
      with (trace m ++ [Executor_shutdown] ++ [Pbar_close]).
    by rewrite app_assoc, last_snoc.
  - rewrite Hfin in Halive. discriminate.
  - rewrite Hfin in Halive. discriminate.
Qed.

(** X19. The progress bar keeps count: with hooks that leave the blocks in
    place and a positive [max_concurrency], a call that returns has advanced
    the bar once per matching block and, when there was a block, closed it
    as its last act; a call that raises has advanced it fewer times than
    there are blocks and never closes it. *)
Theorem progress_bar_accounting (s : St) :
  (0 < max_concurrency (config self))%Z →
  hook_keeps_blocks document_pages contained_blocks process_rewriting →
  ∀ (m : machine) r, rtc steps_to (start s) m → main m = Finished r →
    match r with
    | Ok _ =>
        length (updates (trace m)) = total_blocks document_pages contained_blocks s
        ∧ (total_blocks document_pages contained_blocks s ≠ 0%nat →
           last (trace m) = Some Pbar_close)
    | Raise _ =>
        (length (updates (trace m)) < total_blocks document_pages contained_blocks s)%nat
        ∧ Pbar_close ∉ trace m
    end.
Proof.
  intros Hpos Hkeeps m r Hrun Hfin.
  destruct (invariant_reachable document_pages contained_blocks self process_rewriting
              s m Hrun) as [_ _ Hdone Hphase].
  destruct (finished_drained document_pages contained_blocks self process_rewriting
              s m r Hrun Hfin) as (_ & _ & _ & Hcompleted).
  destruct (enumeration_reachable document_pages contained_blocks self process_rewriting
              s m Hkeeps Hrun) as (_ & _ & Henum).
  rewrite Hfin in Henum. destruct Henum as [Henum|Hk]; [|lia].
  assert (length (yielded (trace m)) + length (done m)
          = total_blocks document_pages contained_blocks s)%nat as Hcount.
  { rewrite <- all_tasks_length, <- Henum, <- Hcompleted, length_fmap, Hdone.
    by rewrite length_app. }
  pose proof (updates_count s m Hrun) as Hupdates.
  rewrite yielded_ok_yielded in Hupdates.
  unfold phase_ok in Hphase. rewrite Hfin in Hphase. destruct r as [u|e].
  - destruct Hphase as (Hok & _ & _ & Hd).
    rewrite succeeded_count in Hupdates by done. rewrite Hd in Hcount. simpl in Hcount.
    split; [lia|]. intros Hsome.
    destruct (closed_at_return s m u Hrun Hfin) as [Hnil|Hlast]; [|done].
    rewrite Hnil in Hcount. simpl in Hcount. lia.
  - split.
    + destruct Hphase as (_ & _ & [[_ Htr]|(oks & t & Hy & Hoks)]).
      * destruct (executor_in_trace s m Hpos Hrun) as [Hlen|[u Hu]];
          [by rewrite Hfin | rewrite Htr in Hlen; simpl in Hlen; lia | congruence].
      * rewrite Hy, omap_app in Hupdates. simpl in Hupdates.
        rewrite app_nil_r, succeeded_count in Hupdates by done.
        rewrite Hy, length_app in Hcount. simpl in Hcount. lia.
    + intros Hin. destruct (closed_only_on_return s m Hrun Hin) as [u Hu]. congruence.
Qed.

(** X20. Where an exception of [rewrite_blocks] comes from: it is the
    [ValueError] of an executor asked for no worker, raised before any task
    was submitted, or it is what the hook of a submitted task raised; so
    with a positive [max_concurrency] and hooks that never raise, every
    call returns. *)
Theorem raised_exception_provenance (s : St) :
  (∀ s' tr e,
     rewrite_blocks document_pages contained_blocks self process_rewriting s
       (s', tr, Raise e) →
     ((max_concurrency (config self) ≤ 0)%Z ∧ e = ValueError
      ∧ tr = [Tqdm_created (disable_tqdm (config self))])
     ∨ ∃ t s0, t ∈ submitted tr ∧ (process_rewriting t.1 t.2 s0).2 = Raise e)
  ∧ ((0 < max_concurrency (config self))%Z →
     (∀ page block s0, (process_rewriting page block s0).2 = Ok tt) →
     ∀ out, rewrite_blocks document_pages contained_blocks self process_rewriting s out →
            out.2 = Ok tt).
Proof.
  assert (∀ s' tr e,
     rewrite_blocks document_pages contained_blocks self process_rewriting s
       (s', tr, Raise e) →
     ((max_concurrency (config self) ≤ 0)%Z ∧ e = ValueError
      ∧ tr = [Tqdm_created (disable_tqdm (config self))])
     ∨ ∃ t s0, t ∈ submitted tr ∧ (process_rewriting t.1 t.2 s0).2 = Raise e) as Hfrom.
  { intros s' tr e (m & r & Hrun & Hfin & [= -> -> <-]).
    destruct (invariant_reachable document_pages contained_blocks self process_rewriting
                s m Hrun) as [_ _ Hdone Hphase].
    destruct (finished_drained document_pages contained_blocks self process_rewriting
                s m _ Hrun Hfin) as (_ & _ & _ & Hcompleted).
    unfold phase_ok in Hphase. rewrite Hfin in Hphase.
    destruct Hphase as (_ & _ & [[-> Htr]|(oks & t & Hy & _)]).
    - left. split_and!; [|done..].
      destruct (Z.le_gt_cases (max_concurrency (config self)) 0) as [|Hpos]; [done|].
      destruct (executor_in_trace s m Hpos Hrun) as [Hlen|[u Hu]];
        [by rewrite Hfin | rewrite Htr in Hlen; simpl in Hlen; lia | congruence].
    - right.
      assert ((t, Raise e) ∈ completed (trace m)) as Hin.
      { rewrite Hdone, Hy. apply elem_of_app. left. apply elem_of_app. right.
        apply list_elem_of_here. }
      exists t. destruct (state_sequential document_pages contained_blocks self process_rewriting s m Hrun) as [_ Hres].
      rewrite Hres in Hin. apply results_elem in Hin as [s0 Hs0]. exists s0.
      split; [|done]. rewrite <- Hcompleted. apply list_elem_of_fmap.
      exists (t, Raise e). split; [done|]. rewrite Hres.
      destruct (state_sequential document_pages contained_blocks self process_rewriting s m Hrun) as [_ Hres'].
      rewrite <- Hres'. rewrite Hdone, Hy. apply elem_of_app. left.
      apply elem_of_app. right. apply list_elem_of_here. }
  split; [exact Hfrom|].
  intros Hpos Hquiet [[s' tr] [[]|e]] Hout; [done|]. exfalso.
  destruct (Hfrom s' tr e Hout) as [(Hk & _)|(t & s0 & _ & Hraise)]; [lia|].
  by rewrite Hquiet in Hraise.
Qed.

End PoolProperties.

(** ** The hook of the base class *)

Section BaseClass.
Context {St Pg Bk Service : Type}.
Variable document_pages : St → list Pg.
Variable contained_blocks : St → Pg → list Bk.
Variable self : @BaseLLMProcessor Service.

Lemma run_hooks_base (s : St) (ts : list (Pg * Bk)) :
  run_hooks process_rewriting_base s ts = s.
Proof. induction ts as [|t ts IH]; [done|]. exact IH. Qed.

Lemma run_results_base (s : St) (ts : list (Pg * Bk)) :
  Forall (fun f => f.2 = Raise NotImplementedError)
         (run_results process_rewriting_base s ts).
Proof. induction ts as [|t ts IH]; constructor; [done | exact IH]. Qed.

Lemma base_keeps_blocks :
  hook_keeps_blocks document_pages contained_blocks process_rewriting_base.
Proof. by intros page block s. Qed.

(** X21. A processor that does not override [process_rewriting]: with a
    positive [max_concurrency] and a block to process, every call of
    [rewrite_blocks] submits every matching block, every task raises
    [NotImplementedError], the call raises it, and the state is untouched;
    [__call__] turns it into a warning. *)
Theorem base_process_rewriting_raises (s : St) :
  (0 < max_concurrency (config self))%Z →
  total_blocks document_pages contained_blocks s ≠ 0%nat →
  (∀ s' tr r,
     rewrite_blocks document_pages contained_blocks self process_rewriting_base s
       (s', tr, r) →
     s' = s ∧ r = Raise NotImplementedError
     ∧ submitted tr = all_tasks document_pages contained_blocks s
     ∧ Forall (fun f => f.2 = Raise NotImplementedError) (completed tr)
     ∧ length (completed tr) = total_blocks document_pages contained_blocks s)
  ∧ (use_llm (config self) = true → llm_service self ≠ None →
     ∀ out, Complex_call document_pages contained_blocks self process_rewriting_base s out →
            ∃ tr, out = (s, tr ++ [Warning NotImplementedError], Ok tt)).
Proof.
  intros Hpos Hsome.
  assert (∀ s' tr r,
     rewrite_blocks document_pages contained_blocks self process_rewriting_base s
       (s', tr, r) →
     s' = s ∧ r = Raise NotImplementedError
     ∧ submitted tr = all_tasks document_pages contained_blocks s
     ∧ Forall (fun f => f.2 = Raise NotImplementedError) (completed tr)
     ∧ length (completed tr) = total_blocks document_pages contained_blocks s) as Hall.
  { intros s' tr r (m & r0 & Hrun & Hfin & [= -> -> ->]).
    destruct (state_sequential document_pages contained_blocks self
                process_rewriting_base s m Hrun) as [Hstate Hresults].
    destruct (finished_drained document_pages contained_blocks self
                process_rewriting_base s m r0 Hrun Hfin) as (_ & _ & _ & Hcompleted).
    destruct (enumeration_reachable document_pages contained_blocks self
                process_rewriting_base s m base_keeps_blocks Hrun) as (_ & _ & Henum).
    rewrite Hfin in Henum. destruct Henum as [Henum|Hk]; [|lia].
    assert (Forall (fun f => f.2 = Raise NotImplementedError) (completed (trace m)))
      as Hraised by (rewrite Hresults; apply run_results_base).
    assert (length (completed (trace m))
            = total_blocks document_pages contained_blocks s) as Hlen.
    { by rewrite <- all_tasks_length, <- Henum, <- Hcompleted, length_fmap. }
    split_and!; [by rewrite Hstate, run_hooks_base| |done..].
    destruct (completed (trace m)) as [|[t r1] fs] eqn:Hc; [simpl in Hlen; lia|].
    apply Forall_cons in Hraised as [Hr1 Hfs]. simpl in Hr1. subst r1.
    destruct (finished_first_failure document_pages contained_blocks self
                process_rewriting_base s m r0 t NotImplementedError Hrun Hfin)
      as (t' & e' & oks & -> & Hin & _).
    { rewrite Hc. apply list_elem_of_here. }
    rewrite Hc in Hin. apply elem_of_cons in Hin as [[= _ ->]|Hin]; [done|].
    rewrite Forall_forall in Hfs. apply Hfs in Hin. simpl in Hin. by rewrite Hin. }
  split; [exact Hall|].
  intros Huse Hservice out. unfold Complex_call. rewrite Huse.
  destruct (llm_service self); [|done]. simpl.
  intros (s' & tr & r & Hout & ->).
  destruct (Hall s' tr r Hout) as (-> & -> & _). by exists tr.
Qed.

End BaseClass.


(** ** Records that change nothing, and the two orchestrators together *)

Section SkipsAndEnumeration.
Context `{Schema}.

(** X22. Two ways a record that names an existing block changes nothing: a
    block without a markup field is skipped in silence, the record's
    ["html"] not even read; a block with one, named by a record without
    ["html"], costs a [KeyError] that is caught and logged. Either way the
    call returns and the document is what it was. *)
Theorem handle_rewrites_skips (fields : gmap pystr json) (id_field : json)
    (a : BlockId) (b : Block) (w : World) :
  fields !! py "id" = Some id_field → decode id_field = Ok a →
  get_block (document w) a = Some b →
  (Block_html b = None → handle_rewrites [JObject fields] w = (w, Ok tt))
  ∧ (is_Some (Block_html b) → fields !! py "html" = None →
     handle_rewrites [JObject fields] w
     = ({| document := document w;
           log := log w ++ [Debug_error_parsing id_field KeyError] |}, Ok tt)).
Proof.
  intros Hid Hdecode Hb.
  assert (getitem (JObject fields) (py "id") = Ok id_field) as Hgid
    by (unfold getitem; by rewrite Hid).
  assert (fields !! py "html" = None →
          getitem (JObject fields) (py "html") = Raise KeyError) as Hghtml
    by (intros Hhtml; unfold getitem; by rewrite Hhtml).
  revert Hgid Hghtml. generalize (JObject fields). intros block_data Hgid Hghtml.
  unfold handle_rewrites, for_each, try_except, rewrite_one, rewrite_failed, bind, lift,
    get, logger, set_block_html, modify, ret.
  rewrite Hgid, Hdecode. cbn [document]. rewrite Hb. split.
  - intros Hnone. rewrite bool_decide_eq_false_2; [by destruct w|].
    rewrite Hnone. by intros [? ?].
  - intros Hsome Hhtml. rewrite bool_decide_eq_true_2 by done.
    by rewrite (Hghtml Hhtml).
Qed.

(** X23. The two orchestrators enumerate alike: [inference_blocks] lists as
    many pairs as [rewrite_blocks] counts, and, with hooks that leave the
    blocks in place and a positive [max_concurrency], the tasks a call of
    [rewrite_blocks] has submitted when it ends are the pairs of
    [inference_blocks], in its order. *)
Theorem inference_blocks_are_the_submitted_tasks {Service : Type}
    (self : @BaseLLMProcessor Service) (block_types : option (list BlockTypes))
    (process_rewriting : nat → BlockId → M World unit) (w : World) :
  (0 < max_concurrency (config self))%Z →
  hook_keeps_blocks World_pages (World_contained_blocks block_types) process_rewriting →
  length (inference_blocks block_types w)
  = total_blocks World_pages (World_contained_blocks block_types) w
  ∧ ∀ (m : @machine World nat BlockId) r,
      rtc (step World_pages (World_contained_blocks block_types) self process_rewriting)
          (start w) m →
      main m = Finished r →
      submitted (trace m) = inference_blocks block_types w.
Proof.
  intros Hpos Hkeeps. rewrite inference_blocks_all_tasks. split.
  - apply all_tasks_length.
  - intros m r Hrun Hfin.
    destruct (enumeration_reachable World_pages (World_contained_blocks block_types)
                self process_rewriting w m Hkeeps Hrun) as (_ & _ & Henum).
    rewrite Hfin in Henum. destruct Henum as [Henum|Hk]; [done | lia].
Qed.

End SkipsAndEnumeration.

(** * The further properties on the sample document *)

Section FurtherSamples.
Import Sample.
Local Open Scope string_scope.

Local Ltac free_of_slash := apply (bool_decide_unpack _); by vm_compute.

Lemma good_batch_has_ids : Forall has_id_key good_batch.
Proof. repeat constructor; eexists _, _; (split; [reflexivity|]); reflexivity. Qed.

(** X4, on the sample batch followed by the number [3] and one more
    record. *)
Lemma handle_rewrites_non_dict_aborts_witness :
  handle_rewrites (batch ++ JInt 3 :: good_batch) world
  = ((handle_rewrites batch world).1, Raise TypeError).
Proof.
  apply handle_rewrites_non_dict_aborts; [apply batch_has_ids | done].
Defined.

(** X6, on the two good records of the sample batch, in both orders. *)
Lemma handle_rewrites_order_irrelevant_witness :
  document (handle_rewrites swapped_batch world).1
  = document (handle_rewrites good_batch world).1.
Proof.
  apply handle_rewrites_order_irrelevant.
  - apply good_batch_has_ids.
  - apply perm_swap.
  - apply (bool_decide_unpack _). by vm_compute.
Defined.

(** X10, on the raw sample batch followed by a text that is not JSON. *)
Lemma load_blocks_all_or_nothing_witness :
  load_blocks json_loads (response raw_batch) = Ok batch
  ∧ load_blocks json_loads (response (raw_batch ++ [py "{"])%list) = Raise JSONDecodeError.
Proof.
  split.
  - apply (proj1 (load_blocks_all_or_nothing json_loads (response raw_batch)
                    (JStr <$> raw_batch) eq_refl)).
    repeat constructor.
  - apply (proj1 (proj2 (proj2 (load_blocks_all_or_nothing json_loads
                                  (response (raw_batch ++ [py "{"])%list)
                                  (JStr <$> (raw_batch ++ [py "{"])%list) eq_refl)))
             (JStr <$> raw_batch) (JStr (py "{")) [] JSONDecodeError).
    + by rewrite fmap_app.
    + repeat constructor; by eexists.
    + done.
Defined.

(** X11, on a response whose only element is not JSON. *)
Lemma load_blocks_raises_witness :
  JSONDecodeError = KeyError ∨ JSONDecodeError = TypeError
  ∨ ∃ s, json_loads s = Raise JSONDecodeError.
Proof.
  apply (load_blocks_raises json_loads (response [py "{"])). by vm_compute.
Defined.

(** X12, on the first block's id without its leading separator, padded with
    blanks and two separators. *)
Lemma decode_ignores_padding_witness :
  decode (JStr (py "  " ++ py "//" ++ py "doc/p1/Text/b1" ++ py " ")%list)
  = decode (JStr (py "doc/p1/Text/b1"))
  ∧ decode (JStr (py "doc/p1/Text/b1")) = Ok (address "p1" "b1" Text).
Proof.
  split; [|by vm_compute].
  apply (@decode_ignores_padding schema); [repeat constructor..|done].
Defined.


(** X15, on the first text block: its payload comes back with new markup. *)
Lemma payload_rewrites_its_block_witness :
  normalize_block_json kind_name (fun _ _ => py "<p>one</p>") text_block doc page1
  = Ok text_payload
  ∧ html_at (document (handle_rewrites [JObject (<[py "html" := seen]> text_payload)]
                         world).1)
            (address "p1" "b1" Text) = Some seen.
Proof.
  assert (normalize_block_json kind_name (fun _ _ => py "<p>one</p>") text_block doc page1
          = Ok text_payload) as Hpayload by by vm_compute.
  split; [exact Hpayload|].
  apply (proj2 (@payload_rewrites_its_block schema kind_name (fun _ _ => py "<p>one</p>")
                  text_block text_block doc page1 text_payload seen world Hpayload
                  eq_refl eq_refl (ltac:(by eexists)))).
Defined.

Lemma midway_reached :
  rtc (step World_pages (World_contained_blocks None) (processor 2) marking_hook)
      (start world) midway.
Proof. apply run_rtc. Qed.

(** X16, twelve steps into the sample run: two tasks in flight, four
    waiting. *)
Lemma pool_never_exceeds_max_workers_witness :
  (length (running midway) ≤ 2)%nat ∧ length (running midway) = 2%nat
  ∧ length (queue midway) = 4%nat.
Proof.
  split; [|split; by vm_compute].
  exact (pool_never_exceeds_max_workers World_pages (World_contained_blocks None)
           (processor 2) marking_hook world midway midway_reached).
Defined.

Lemma sequential_run_reached :
  rtc (step World_pages (World_contained_blocks None) (processor 1) marking_hook)
      (start world) sequential_run.
Proof. apply run_rtc. Qed.

(** X17, on the sample document with one worker: the table's task fails and
    the four tasks after it still run, in order. *)
Lemma single_worker_is_sequential_witness :
  main sequential_run = Finished (Raise (Exception 7))
  ∧ (completed (trace sequential_run)).*1
    = all_tasks World_pages (World_contained_blocks None) world
  ∧ state sequential_run
    = run_hooks marking_hook world (all_tasks World_pages (World_contained_blocks None) world).
Proof.
  assert (main sequential_run = Finished (Raise (Exception 7))) as Hfin by by vm_compute.
  destruct (single_worker_is_sequential World_pages (World_contained_blocks None)
              (processor 1) marking_hook world eq_refl (marking_hook_keeps_blocks None)
              sequential_run _ sequential_run_reached Hfin) as (Horder & Hstate & _).
  by split_and!.
Defined.

(** X18, on the sample document with no worker. *)
Lemma nonpositive_max_workers_raises_witness :
  rewrite_blocks World_pages (World_contained_blocks None) (processor 0) marking_hook
    world (world, [Tqdm_created false], Raise ValueError).
Proof.
  apply (nonpositive_max_workers_raises World_pages (World_contained_blocks None)
           (processor 0) marking_hook world); [done | by vm_compute | done].
Defined.

(** X19, on the sample run, which raises after one block was yielded. *)
Lemma progress_bar_accounting_witness :
  (length (updates (trace sample_run)) < 6)%nat ∧ (Pbar_close ∉ trace sample_run)
  ∧ length (updates (trace sample_run)) = 1%nat.
Proof.
  pose proof (progress_bar_accounting World_pages (World_contained_blocks None)
                (processor 2) marking_hook world eq_refl (marking_hook_keeps_blocks None)
                sample_run _ sample_run_reached sample_run_raised) as [Hcount Hclosed].
  split_and!; [exact Hcount | exact Hclosed | by vm_compute].
Defined.

Lemma base_run_reached :
  rtc (step World_pages (World_contained_blocks None) (processor 2)
         process_rewriting_base)
      (start world) base_run.
Proof. apply run_rtc. Qed.

(** X21, on the sample document with the hook of the base class. *)
Lemma base_process_rewriting_raises_witness :
  main base_run = Finished (Raise NotImplementedError)
  ∧ state base_run = world
  ∧ length (completed (trace base_run)) = 6%nat.
Proof.
  assert (main base_run = Finished (Raise NotImplementedError)) as Hfin by by vm_compute.
  destruct (proj1 (base_process_rewriting_raises World_pages
                     (World_contained_blocks None) (processor 2) world eq_refl
                     (ltac:(by vm_compute)))
              (state base_run) (trace base_run) (Raise NotImplementedError))
    as (Hstate & _ & _ & _ & Hlen).
  { exists base_run, (Raise NotImplementedError).
    split_and!; [apply base_run_reached | exact Hfin | done]. }
  split_and!; [exact Hfin | exact Hstate | rewrite Hlen; by vm_compute].
Defined.

(** X22, on the block of the second page that has no markup field, and on
    a record for the first text block that carries no markup. *)
Lemma handle_rewrites_skips_witness :
  handle_rewrites [record "/doc/p2/Text/b2" "<p>new</p>"] world = (world, Ok tt)
  ∧ handle_rewrites [JObject (<[py "id" := JStr (py "/doc/p1/Text/b1")]> ∅)] world
    = ({| document := doc;
          log := [Debug_error_parsing (JStr (py "/doc/p1/Text/b1")) KeyError] |}, Ok tt).
Proof.
  split.
  - destruct (@handle_rewrites_skips schema
                (<[py "id" := JStr (py "/doc/p2/Text/b2")]>
                   (<[py "html" := JStr (py "<p>new</p>")]> ∅))
                (JStr (py "/doc/p2/Text/b2")) (address "p2" "b2" Text)
                (block (address "p2" "b2" Text) (box 0 0 10 10) None) world)
      as [Hskip _]; [by vm_compute..|].
    by apply Hskip.
  - destruct (@handle_rewrites_skips schema
                (<[py "id" := JStr (py "/doc/p1/Text/b1")]> ∅)
                (JStr (py "/doc/p1/Text/b1")) (address "p1" "b1" Text) text_block world)
      as [_ Hlogged]; [by vm_compute..|].
    apply Hlogged; [by eexists | by vm_compute].
Defined.

(** X23, on the sample run. *)
Lemma inference_blocks_are_the_submitted_tasks_witness :
  length (inference_blocks None world) = 6%nat
  ∧ submitted (trace sample_run) = inference_blocks None world.
Proof.
  destruct (@inference_blocks_are_the_submitted_tasks schema unit (processor 2) None
              marking_hook world eq_refl (marking_hook_keeps_blocks None))
    as [Hlen Hsub].
  split; [rewrite Hlen; by vm_compute|].
  exact (Hsub sample_run _ sample_run_reached sample_run_raised).
Defined.

End FurtherSamples.
